(** * telegram-bot-express: classification, aggregation and dispatch

    A shallow embedding of [index.cjs]: the update normalizer
    ([getMessageFromBody]), the event classifier ([getEventName]), the
    attachment resolver ([extendMessage], [getTelegramFile]), the listeners
    registered by the [TelegramBotController] constructor and the
    debounced aggregation of self-forwarded messages, the webhook entry
    point ([api]) and the choice of transport made by the constructor,
    followed by the properties of the written specification that concern
    them and by further properties of the code.

    JavaScript objects become records whose optional keys are [option]
    fields; a thrown exception (or a rejected promise) becomes the [Throw]
    case of [result]; the [Map] of pending batches is a [gmap], and the
    arrays it shares with the timer callbacks live in an explicit store. *)

From Stdlib Require Import ZArith String Ascii List Lia DecimalString.
From Stdlib Require DecimalPos DecimalZ.
From stdpp Require Import gmap strings list.
Import ListNotations.
Open Scope Z_scope.

(** ** Exceptions and results *)

Inductive Error : Type :=
| UnknownTelegramBody          (* new Error("Unknown Telegram Body") *)
| TypeError                    (* reading or writing a key of undefined *)
| SyntaxError                  (* new RegExp on a malformed source or flags *)
| FileLookupError              (* this.bot.getFile rejected *)
| HandlerError (what : string) (* raised by caller supplied handler code *).

Inductive result (A : Type) : Type :=
| Ok (a : A)
| Throw (e : Error).
Arguments Ok {A} a.
Arguments Throw {A} e.

#[global] Instance result_ret : MRet result := fun A a => Ok a.

#[global] Instance result_bind : MBind result := fun A B k r =>
  match r with
  | Ok a => k a
  | Throw e => Throw e
  end.

(** ** Data model *)

(** The value stored under a [file] key by the attachment resolver. *)
Record File : Type := mkFile {
  file_path : string;
  url : string
}.

Record Thumb : Type := mkThumb {
  th_file_id : option string;
  th_file : option File
}.

(** An attachment block: [voice], [document], [video], [audio],
    [video_note], or one element of the [photo] array.  [a_rest] stands
    for the keys the program never reads. *)
Record Attachment : Type := mkAttachment {
  a_file_id : option string;
  a_file_size : option Z;
  a_thumb : option Thumb;
  a_thumbnail : option Thumb;
  a_file : option File;
  a_rest : list (string * string)
}.

Record User : Type := mkUser {
  u_id : Z;
  is_bot : bool
}.

Record Chat : Type := mkChat {
  c_id : Z;
  c_type : string
}.

Record Contact : Type := mkContact {
  user_id : option Z
}.

Record Entity : Type := mkEntity {
  e_type : string
}.

(** A message object.  [m_type] is the [type] key that [api] adds;
    [reply_to_message] only records the presence of the replied-to
    message (the program tests it for truthiness and nothing else);
    [m_rest] stands for every key the program never reads. *)
Record Message : Type := mkMessage {
  m_type : option string;
  chat : option Chat;
  from : option User;
  forward_from : option User;
  forward_from_chat : option Chat;
  text : option string;
  reply_to_message : option Z;
  entities : option (list Entity);
  contact : option Contact;
  voice : option Attachment;
  document : option Attachment;
  video : option Attachment;
  audio : option Attachment;
  photo : option (list Attachment);
  video_note : option Attachment;
  m_rest : list (string * string)
}.

Record Metadata : Type := mkMetadata {
  md_type : string
}.

Record CallbackQuery : Type := mkCallbackQuery {
  cq_id : string;
  cq_data : string;
  cq_message : option Message
}.

Record InlineQuery : Type := mkInlineQuery {
  iq_id : string;
  chat_type : option string
}.

(** The body of a webhook request. *)
Record Body : Type := mkBody {
  b_message : option Message;
  b_edited_message : option Message;
  b_channel_post : option Message;
  b_callback_query : option CallbackQuery;
  b_inline_query : option InlineQuery
}.

Record Normalized : Type := mkNormalized {
  n_type : string;
  n_message : Message;
  chatId : string;
  userId : string
}.

(** ** Strings as JavaScript uses them *)

Definition TELEGRAM_HOST : string := "api.telegram.org".
Definition FORWARD_TIME : Z := 1000.

(** [String(n)] for an integer, and [String(undefined)]. *)
Definition String_of_id (o : option Z) : string :=
  match o with
  | Some z => NilZero.string_of_int (Z.to_int z)
  | None => "undefined"
  end.

(** Truthiness of a string-or-undefined value. *)
Definition truthy (o : option string) : bool :=
  match o with
  | Some s => negb (String.eqb s "")
  | None => false
  end.

Definition startsWith (s p : string) : bool := String.prefix p s.

(** [s.lastIndexOf(c)] for a one-character [c]; [None] stands for -1. *)
Fixpoint lastIndexOf_from (i : nat) (c : ascii) (s : string) : option nat :=
  match s with
  | EmptyString => None
  | String a s' =>
      match lastIndexOf_from (S i) c s' with
      | Some j => Some j
      | None => if Ascii.eqb a c then Some i else None
      end
  end.

Definition lastIndexOf (s : string) (c : ascii) : option nat :=
  lastIndexOf_from 0 c s.

(** [s.slice(b, e)] for indices within the string ([""] when [e <= b]). *)
Definition slice (s : string) (b e : nat) : string :=
  String.substring b (e - b) s.

(** [s.slice(b)]. *)
Definition slice_from (s : string) (b : nat) : string :=
  String.substring b (String.length s - b) s.

(** ** Update normalizer *)

Definition getMessageFromBody (body : Body) : result Normalized :=
  tm ← match b_message body, b_edited_message body,
              b_channel_post body, b_callback_query body with
        | Some m, _, _, _ => Ok ("message", Some m)
        | None, Some m, _, _ => Ok ("edited_message", Some m)
        | None, None, Some m, _ => Ok ("channel_post", Some m)
        | None, None, None, Some q => Ok ("callback_query", cq_message q)
        | None, None, None, None => Throw UnknownTelegramBody
        end;
  match tm.2 with
  | None => Throw TypeError
  | Some m =>
      Ok {| n_type := tm.1;
            n_message := m;
            chatId := String_of_id (c_id <$> chat m);
            userId := String_of_id (u_id <$> from m) |}
  end.

(** ** External collaborators

    [RegExp_exec src flags s] stands for [new RegExp(src, flags).exec(s)]:
    [None] when the constructor throws a [SyntaxError], otherwise whether
    the match succeeded.  [getFile] stands for [this.bot.getFile]: [None]
    when the returned promise rejects, otherwise the [file_path] of the
    file information.  [token] is [this.bot.token]. *)
Record Env : Type := mkEnv {
  RegExp_exec : string -> string -> string -> option bool;
  getFile : option string -> option string;
  token : string
}.

(** ** Event classifier *)

(** [new RegExp(str.slice(1, lastSlash), str.slice(lastSlash + 1))
    .exec(txt)] for a key [str] that starts with a slash. *)
Definition restoredRegex_exec (E : Env) (str txt : string) : option bool :=
  let lastSlash := default 0%nat (lastIndexOf str "/"%char) in
  RegExp_exec E (slice str 1 lastSlash) (slice_from str (lastSlash + 1)) txt.

(** The loop over [eventsList] of the ["text"] case: [Ok (Some str)] when
    the loop returns [str], [Ok None] when it runs to its end. *)
Fixpoint scan_patterns (E : Env) (txt : string) (eventsList : list string)
  : result (option string) :=
  match eventsList with
  | [] => Ok None
  | str :: rest =>
      if startsWith str "/" then
        match restoredRegex_exec E str txt with
        | None => Throw SyntaxError
        | Some true => Ok (Some str)
        | Some false => scan_patterns E txt rest
        end
      else scan_patterns E txt rest
  end.

Definition has_entity (ty : string) (es : list Entity) : bool :=
  existsb (fun entity => String.eqb (e_type entity) ty) es.

Definition getEventName (E : Env) (message : Message) (metadata : Metadata)
    (eventsList : list string) : result string :=
  if String.eqb (md_type metadata) "contact" then
    match from message with
    | None => Throw TypeError
    | Some sender =>
        if is_bot sender then Ok "contact"
        else
          match contact message with
          | None => Throw TypeError
          | Some c =>
              if bool_decide (user_id c = Some (u_id sender))
              then Ok "auth_by_contact"
              else Ok "contact"
          end
    end
  else if String.eqb (md_type metadata) "text" then
    found ← scan_patterns E (default "undefined" (text message)) eventsList;
    match found with
    | Some str => Ok str
    | None =>
        if bool_decide (m_type message = Some "edited_message")
        then Ok "edited_message_text"
        else if bool_decide (is_Some (reply_to_message message))
        then Ok "reply_to_message"
        else
          match entities message with
          | Some es =>
              if has_entity "mention" es then Ok "mention"
              else if has_entity "bot_command" es then Ok "bot_command"
              else Ok (md_type metadata)
          | None => Ok (md_type metadata)
          end
    end
  else Ok (md_type metadata).

(** ** Attachment resolver *)

Definition getTelegramFile (E : Env) (fileId : option string) : result File :=
  match getFile E fileId with
  | Some path =>
      Ok {| file_path := path;
            url := "https://" +:+ TELEGRAM_HOST +:+ "/file/bot" +:+ token E
                   +:+ "/" +:+ path |}
  | None => Throw FileLookupError
  end.

Definition set_file (a : Attachment) (f : File) : Attachment :=
  {| a_file_id := a_file_id a; a_file_size := a_file_size a;
     a_thumb := a_thumb a; a_thumbnail := a_thumbnail a;
     a_file := Some f; a_rest := a_rest a |}.

Definition set_thumb_file (a : Attachment) (t : Thumb) (f : File) : Attachment :=
  {| a_file_id := a_file_id a; a_file_size := a_file_size a;
     a_thumb := Some {| th_file_id := th_file_id t; th_file := Some f |};
     a_thumbnail := a_thumbnail a;
     a_file := a_file a; a_rest := a_rest a |}.

(** [const thumb = x.thumb || x.thumbnail; if (thumb) { x.thumb.file =
    await this.getTelegramFile(thumb.file_id); }]: the lookup uses
    whichever of the two keys is present, the assignment always goes
    through [x.thumb] and throws when that key is absent. *)
Definition extend_thumb (E : Env) (a : Attachment) : result Attachment :=
  match (match a_thumb a with Some t => Some t | None => a_thumbnail a end) with
  | Some thumb =>
      f ← getTelegramFile E (th_file_id thumb);
      match a_thumb a with
      | Some t => Ok (set_thumb_file a t f)
      | None => Throw TypeError
      end
  | None => Ok a
  end.

(** [voice] and [audio]. *)
Definition extend_plain (E : Env) (b : option Attachment)
  : result (option Attachment) :=
  match b with
  | Some a =>
      if truthy (a_file_id a)
      then f ← getTelegramFile E (a_file_id a); Ok (Some (set_file a f))
      else Ok b
  | None => Ok None
  end.

(** [document] and [video]. *)
Definition extend_with_thumb (E : Env) (b : option Attachment)
  : result (option Attachment) :=
  match b with
  | Some a =>
      if truthy (a_file_id a)
      then f ← getTelegramFile E (a_file_id a);
           a' ← extend_thumb E (set_file a f);
           Ok (Some a')
      else Ok b
  | None => Ok None
  end.

(** One element of the [photo] array. *)
Definition extend_photo (E : Env) (p : Attachment) : result Attachment :=
  if bool_decide (0 < default 0 (a_file_size p)) && truthy (a_file_id p)
  then f ← getTelegramFile E (a_file_id p); Ok (set_file p f)
  else Ok p.

(** [video_note]: resolved whenever the block is present. *)
Definition extend_video_note (E : Env) (b : option Attachment)
  : result (option Attachment) :=
  match b with
  | Some a =>
      f ← getTelegramFile E (a_file_id a);
      a' ← extend_thumb E (set_file a f);
      Ok (Some a')
  | None => Ok None
  end.

(** [extendMessage] mutates the message it is given and returns it; the
    value returned here is that object after the mutation. *)
Definition extendMessage (E : Env) (message : Message) : result Message :=
  voice' ← extend_plain E (voice message);
  document' ← extend_with_thumb E (document message);
  video' ← extend_with_thumb E (video message);
  audio' ← extend_plain E (audio message);
  photo' ← match photo message with
           | Some ps => ps' ← mapM (extend_photo E) ps; Ok (Some ps')
           | None => Ok None
           end;
  video_note' ← extend_video_note E (video_note message);
  Ok {| m_type := m_type message; chat := chat message; from := from message;
        forward_from := forward_from message;
        forward_from_chat := forward_from_chat message;
        text := text message;
        reply_to_message := reply_to_message message;
        entities := entities message; contact := contact message;
        voice := voice'; document := document'; video := video';
        audio := audio'; photo := photo'; video_note := video_note';
        m_rest := m_rest message |}.

(** ** Handlers, registries and observable effects *)

(** What a handler receives after the bot handle: an (enriched) message,
    the array of enriched forwards, the object [{id: query.id,
    ...query.message}] built for a callback query, or an inline query. *)
Inductive Payload : Type :=
| PMessage (m : Message)
| PForwards (ms : list Message)
| PCallback (id : string) (m : option Message)
| PInline (q : InlineQuery).

(** Caller supplied code: [None] when the call (and the promise it may
    return) completes, [Some e] when it throws or rejects with [e]. *)
Definition Handler : Type := Payload -> option Error.

(** [privateEvents] and [publicEvents]: the own keys of the object in
    registration order, each with its handler.  [events[name]] is read
    as a lookup among these keys; names that a plain object inherits
    (such as [toString]) are left out of the model. *)
Definition Registry : Type := list (string * Handler).

Definition ownKeys (events : Registry) : list string := map fst events.

Fixpoint lookup_event (events : Registry) (name : string) : option Handler :=
  match events with
  | [] => None
  | (k, h) :: rest => if String.eqb k name then Some h else lookup_event rest name
  end.

Record Args : Type := mkArgs {
  privateEvents : Registry;
  publicEvents : Registry
}.

Inductive Scope : Type := Private | Public.

(** [Invoke]: a handler of the given registry was called; [EmitError]:
    [this.bot.emit("error", e)], which the constructor forwards to
    [onError]; [Warn]: [console.warn]; [Unhandled]: the promise returned
    by an [async] listener rejected, and the emitter that called the
    listener dropped it. *)
Inductive Effect : Type :=
| Invoke (scope : Scope) (name : string) (arg : Payload)
| EmitError (e : Error)
| Warn (line : string)
| Unhandled (e : Error).

(** How the promise of an [async] listener settles. *)
Inductive Settled : Type :=
| Fulfilled
| Rejected (e : Error).

(** ** The ordinary dispatch path of the [message] listener *)

(** [try { await events[eventName](this.bot, message) } catch (error) {
    this.bot.emit("error", error) }] or the warning, for one registry. *)
Definition invoke_guarded (scope : Scope) (events : Registry)
    (unknown : string) (eventName : string) (message : Message)
  : list Effect :=
  match lookup_event events eventName with
  | Some handler =>
      match handler (PMessage message) with
      | None => [Invoke scope eventName (PMessage message)]
      | Some error => [Invoke scope eventName (PMessage message); EmitError error]
      end
  | None => [Warn (unknown +:+ eventName)]
  end.

Definition dispatch (E : Env) (A : Args) (message : Message)
    (metadata : Metadata) : list Effect * Settled :=
  match extendMessage E message with
  | Throw e => ([], Rejected e)
  | Ok message =>
      match chat message with
      | None => ([], Rejected TypeError)
      | Some c =>
          if String.eqb (c_type c) "private" then
            match getEventName E message metadata (ownKeys (privateEvents A)) with
            | Throw e => ([], Rejected e)
            | Ok eventName =>
                (invoke_guarded Private (privateEvents A)
                   "Unknown private event: " eventName message, Fulfilled)
            end
          else
            match getEventName E message metadata (ownKeys (publicEvents A)) with
            | Throw e => ([], Rejected e)
            | Ok eventName =>
                (invoke_guarded Public (publicEvents A)
                   "Unknown public event: " eventName message, Fulfilled)
            end
      end
  end.

(** ** The [channel_post], [callback_query] and [inline_query] listeners *)

(** [if (events[name]) { await events[name](this.bot, arg); }] followed by
    the rest of the listener body. *)
Definition invoke_then (scope : Scope) (events : Registry) (name : string)
    (arg : Payload) (rest : list Effect * Settled) : list Effect * Settled :=
  match lookup_event events name with
  | Some handler =>
      match handler arg with
      | None => (Invoke scope name arg :: rest.1, rest.2)
      | Some error => ([Invoke scope name arg], Rejected error)
      end
  | None => rest
  end.

Definition on_channel_post (A : Args) (message : Message)
  : list Effect * Settled :=
  invoke_then Public (publicEvents A) "channel_post" (PMessage message)
    ([], Fulfilled).

Definition on_callback_query (A : Args) (query : CallbackQuery)
  : list Effect * Settled :=
  let arg := PCallback (cq_id query) (cq_message query) in
  invoke_then Public (publicEvents A) (cq_data query) arg
    (invoke_then Private (privateEvents A) (cq_data query) arg
       ([], Fulfilled)).

Definition on_inline_query (A : Args) (message : InlineQuery)
  : list Effect * Settled :=
  if bool_decide (chat_type message = Some "private")
     || bool_decide (chat_type message = Some "sender")
  then invoke_then Private (privateEvents A) "inline_query" (PInline message)
         ([], Fulfilled)
  else if bool_decide (chat_type message = Some "group")
          || bool_decide (chat_type message = Some "supergroup")
  then invoke_then Public (publicEvents A) "inline_query" (PInline message)
         ([], Fulfilled)
  else ([], Fulfilled).

(** What an emitter call leaves behind: the effects of the listener, and
    the rejection nobody awaits. *)
Definition observed (r : list Effect * Settled) : list Effect :=
  match r.2 with
  | Fulfilled => r.1
  | Rejected e => r.1 ++ [Unhandled e]
  end.

(** ** Forward aggregation: state of the event loop

    The [message] listener and the timer callbacks share
    [transactionMessages]; each of its entries holds a reference to an
    array that the callbacks read again later, so arrays live in a store
    ([arrays]) and entries hold their address.  [pending] is what the
    event loop still has to run: armed timers, and the two points at
    which a flush that is under way resumes (when [Promise.all] settles,
    and when the promise of the [message_forwards] handler settles). *)

Record Transaction : Type := mkTransaction {
  messages : nat;
  timeoutId : nat
}.

Inductive Pending : Type :=
| Timer (id : nat) (key : Z) (due : Z)
| Resolving (key : Z) (extMessages : result (list Message)) (due : Z)
| Handling (key : Z) (outcome : option Error) (due : Z).

Definition due_of (p : Pending) : Z :=
  match p with
  | Timer _ _ d | Resolving _ _ d | Handling _ _ d => d
  end.

Record State : Type := mkState {
  now : Z;
  transactionMessages : gmap Z Transaction;
  arrays : gmap nat (list Message);
  next_id : nat;
  pending : list Pending;
  log : list Effect
}.

Definition init : State :=
  {| now := 0; transactionMessages := ∅; arrays := ∅; next_id := 0;
     pending := []; log := [] |}.

(** How long the attachment lookups of one flush, and the
    [message_forwards] handler, take to settle (milliseconds); zero
    when they settle within the turn of the event loop that started
    them. *)
Record Latency : Type := mkLatency {
  resolve_ms : Z;
  handler_ms : Z
}.

Definition with_table (st : State) (t : gmap Z Transaction) : State :=
  {| now := now st; transactionMessages := t; arrays := arrays st;
     next_id := next_id st; pending := pending st; log := log st |}.

Definition with_pending (st : State) (ps : list Pending) : State :=
  {| now := now st; transactionMessages := transactionMessages st;
     arrays := arrays st; next_id := next_id st; pending := ps;
     log := log st |}.

Definition with_now (st : State) (t : Z) : State :=
  {| now := t; transactionMessages := transactionMessages st;
     arrays := arrays st; next_id := next_id st; pending := pending st;
     log := log st |}.

Definition record (st : State) (effects : list Effect) : State :=
  {| now := now st; transactionMessages := transactionMessages st;
     arrays := arrays st; next_id := next_id st; pending := pending st;
     log := log st ++ effects |}.

Definition is_timer (id : nat) (p : Pending) : bool :=
  match p with
  | Timer id' _ _ => Nat.eqb id id'
  | _ => false
  end.

Definition clearTimeout (id : nat) (st : State) : State :=
  with_pending st (filter (fun p => is_timer id p = false) (pending st)).

(** ** The self-forward branch of the [message] listener *)

Definition on_forward (st : State) (key : Z) (message : Message) : State :=
  (* let messages = []; if (transactionMessages.has(key)) { ... } *)
  let '(ref, st) :=
    match transactionMessages st !! key with
    | Some transaction =>
        (messages transaction, clearTimeout (timeoutId transaction) st)
    | None =>
        (next_id st,
         {| now := now st; transactionMessages := transactionMessages st;
            arrays := <[next_id st := []]> (arrays st);
            next_id := S (next_id st); pending := pending st;
            log := log st |})
    end in
  (* messages.push(message) *)
  let arrays' := alter (fun ms => ms ++ [message]) ref (arrays st) in
  (* const timeoutId = setTimeout(..., FORWARD_TIME) *)
  let id := next_id st in
  (* transactionMessages.set(key, { messages, timeoutId }) *)
  {| now := now st;
     transactionMessages :=
       <[key := {| messages := ref; timeoutId := id |}]> (transactionMessages st);
     arrays := arrays';
     next_id := S id;
     pending := pending st ++ [Timer id key (now st + FORWARD_TIME)];
     log := log st |}.

Definition on_message (E : Env) (A : Args) (st : State) (message : Message)
    (metadata : Metadata) : State :=
  if bool_decide (is_Some (forward_from message))
     || bool_decide (is_Some (forward_from_chat message))
  then
    match chat message with
    | None => record st [Unhandled TypeError]
    | Some c =>
        match from message with
        | None => record st [Unhandled TypeError]
        | Some sender =>
            if c_id c =? u_id sender
            then on_forward st (c_id c) message
            else record st (observed (dispatch E A message metadata))
        end
    end
  else record st (observed (dispatch E A message metadata)).

(** ** The timer callback, cut at its two [await]s *)

(** From the start of the callback to [await Promise.all(...)]: the
    array is read, and [map] starts one [extendMessage] per element it
    holds at that moment; elements pushed later are not part of the
    result.  [extendMessage] writes into the message objects of the
    array; the store keeps them as they arrived, which makes no
    difference to a later enrichment ([extendMessage] gives the same
    result on a message it has already enriched). *)
Definition on_timeout (E : Env) (L : Latency) (st : State) (key : Z) : State :=
  match transactionMessages st !! key with
  | Some transaction =>
      let st := clearTimeout (timeoutId transaction) st in
      let batch := default [] (arrays st !! messages transaction) in
      with_pending st
        (pending st ++
         [Resolving key (mapM (extendMessage E) batch) (now st + resolve_ms L)])
  | None => st
  end.

(** The [finally] block. *)
Definition finish (st : State) (key : Z) : State :=
  with_table st (delete key (transactionMessages st)).

(** From the settling of [Promise.all] to the [await] on the handler. *)
Definition on_resolved (A : Args) (L : Latency) (st : State) (key : Z)
    (extMessages : result (list Message)) : State :=
  match extMessages with
  | Throw error => finish (record st [EmitError error]) key
  | Ok extMessages =>
      match lookup_event (privateEvents A) "message_forwards" with
      | Some handler =>
          let st := record st [Invoke Private "message_forwards"
                                 (PForwards extMessages)] in
          with_pending st
            (pending st ++
             [Handling key (handler (PForwards extMessages))
                (now st + handler_ms L)])
      | None => finish st key
      end
  end.

(** From the settling of the handler's promise to the end. *)
Definition on_handled (st : State) (key : Z) (outcome : option Error) : State :=
  match outcome with
  | Some error => finish (record st [EmitError error]) key
  | None => finish st key
  end.

Definition run_pending (E : Env) (A : Args) (L : Latency) (st : State)
    (p : Pending) : State :=
  match p with
  | Timer _ key _ => on_timeout E L st key
  | Resolving key extMessages _ => on_resolved A L st key extMessages
  | Handling key outcome _ => on_handled st key outcome
  end.

(** ** The event loop *)

Fixpoint min_due (ps : list Pending) : option Z :=
  match ps with
  | [] => None
  | p :: ps' =>
      Some (match min_due ps' with
            | Some d => Z.min (due_of p) d
            | None => due_of p
            end)
  end.

(** The first pending item that is due at [d], and the others. *)
Fixpoint take_due (d : Z) (ps : list Pending) : option (Pending * list Pending) :=
  match ps with
  | [] => None
  | p :: ps' =>
      if due_of p =? d then Some (p, ps')
      else match take_due d ps' with
           | Some (q, rest) => Some (q, p :: rest)
           | None => None
           end
  end.

(** Runs, earliest first, whatever is due up to time [t]; among items
    due at the same time, the one that was scheduled first. *)
Fixpoint advance (fuel : nat) (E : Env) (A : Args) (L : Latency) (t : Z)
    (st : State) : State :=
  match fuel with
  | O => st
  | S fuel' =>
      match min_due (pending st) with
      | Some d =>
          if d <=? t then
            match take_due d (pending st) with
            | Some (p, rest) =>
                advance fuel' E A L t
                  (run_pending E A L
                     (with_pending (with_now st (Z.max (now st) d)) rest) p)
            | None => st
            end
          else with_now st (Z.max (now st) t)
      | None => with_now st (Z.max (now st) t)
      end
  end.

(** A timer leads to at most two further items, a settled [Promise.all]
    to at most one. *)
Definition weight (p : Pending) : nat :=
  match p with
  | Timer _ _ _ => 3
  | Resolving _ _ _ => 2
  | Handling _ _ _ => 1
  end.

Fixpoint work (ps : list Pending) : nat :=
  match ps with
  | [] => 0
  | p :: ps' => weight p + work ps'
  end.

Definition advance_to (E : Env) (A : Args) (L : Latency) (t : Z) (st : State)
  : State :=
  advance (S (work (pending st))) E A L t st.

(** One update delivered to the [message] listener at time [t], after
    whatever was due by then.  The forward branch of the listener has
    no [await]; the ordinary path does not touch the state the timers
    share, and is run in one piece. *)
Definition deliver (E : Env) (A : Args) (L : Latency) (st : State)
    (u : Z * Message * Metadata) : State :=
  on_message E A (advance_to E A L u.1.1 st) u.1.2 u.2.

(** The updates in order of arrival, then the loop up to [horizon]. *)
Definition run (E : Env) (A : Args) (L : Latency)
    (updates : list (Z * Message * Metadata)) (horizon : Z) : State :=
  advance_to E A L horizon (foldl (deliver E A L) init updates).

(** The batches handed to the [message_forwards] handler, oldest first. *)
Definition flushed (st : State) : list (list Message) :=
  omap (fun e => match e with
                 | Invoke Private "message_forwards" (PForwards ms) => Some ms
                 | _ => None
                 end) (log st).

(** ** Sample collaborators, registries and updates

    Concrete values on which the statements below are exercised. *)

(** The regular expression engine on the sources [^hi$] and [^bye$]
    without flags (each matches exactly the word it spells); every
    other source is taken not to match, and a flag string other than
    the empty one is refused, as the engine refuses [start]. *)
Definition sample_RegExp_exec (src flags s : string) : option bool :=
  if String.eqb flags "" then
    if String.eqb src "^hi$" then Some (String.eqb s "hi")
    else if String.eqb src "^bye$" then Some (String.eqb s "bye")
    else Some false
  else None.

(** A file lookup that answers every identifier and fails on [undefined]. *)
Definition sample_getFile (fileId : option string) : option string :=
  match fileId with
  | Some id => Some ("files/" +:+ id)
  | None => None
  end.

Definition sample_env : Env :=
  {| RegExp_exec := sample_RegExp_exec; getFile := sample_getFile;
     token := "123:ABC" |}.

Definition empty_message : Message :=
  {| m_type := None; chat := None; from := None; forward_from := None;
     forward_from_chat := None; text := None; reply_to_message := None;
     entities := None; contact := None; voice := None; document := None;
     video := None; audio := None; photo := None; video_note := None;
     m_rest := [] |}.

Definition block (id : string) (size : Z) : Attachment :=
  {| a_file_id := Some id; a_file_size := Some size; a_thumb := None;
     a_thumbnail := None; a_file := None; a_rest := [] |}.

(** A voice message that user 5 forwards, from user [origin], into the
    private chat with the bot (chat identifier 5). *)
Definition self_forward (origin : Z) (id : string) : Message :=
  {| m_type := None; chat := Some (mkChat 5 "private");
     from := Some (mkUser 5 false); forward_from := Some (mkUser origin false);
     forward_from_chat := None; text := None; reply_to_message := None;
     entities := None; contact := None; voice := Some (block id 10);
     document := None; video := None; audio := None; photo := None;
     video_note := None; m_rest := [] |}.

(** The same forward seen in a group: the chat is not the sender. *)
Definition group_forward (origin : Z) (id : string) : Message :=
  {| m_type := None; chat := Some (mkChat (-77) "group");
     from := Some (mkUser 5 false); forward_from := Some (mkUser origin false);
     forward_from_chat := None; text := None; reply_to_message := None;
     entities := None; contact := None; voice := Some (block id 10);
     document := None; video := None; audio := None; photo := None;
     video_note := None; m_rest := [] |}.

(** An edited reply with a mention whose text is [hi]. *)
Definition edited_reply_hi : Message :=
  {| m_type := Some "edited_message"; chat := Some (mkChat 5 "private");
     from := Some (mkUser 5 false); forward_from := None;
     forward_from_chat := None; text := Some "hi";
     reply_to_message := Some 41;
     entities := Some [mkEntity "mention"; mkEntity "bot_command"];
     contact := None; voice := None; document := None; video := None;
     audio := None; photo := None; video_note := None; m_rest := [] |}.

(** A contact shared in a channel: channel posts carry no sender. *)
Definition contact_without_sender : Message :=
  {| m_type := Some "channel_post"; chat := Some (mkChat (-1001) "channel");
     from := None; forward_from := None; forward_from_chat := None;
     text := None; reply_to_message := None; entities := None;
     contact := Some (mkContact (Some 9)); voice := None; document := None;
     video := None; audio := None; photo := None; video_note := None;
     m_rest := [] |}.

(** A photo message with three size variants; the second has no size. *)
Definition photo_message : Message :=
  {| m_type := None; chat := Some (mkChat 5 "private");
     from := Some (mkUser 5 false); forward_from := None;
     forward_from_chat := None; text := None; reply_to_message := None;
     entities := None; contact := None; voice := None; document := None;
     video := None; audio := None;
     photo := Some [block "small" 100;
                    {| a_file_id := Some "mid"; a_file_size := None;
                       a_thumb := None; a_thumbnail := None; a_file := None;
                       a_rest := [] |};
                    block "large" 900];
     video_note := None; m_rest := [("caption", "sunset")] |}.

(** A message as enrichment returns it (itself when enrichment fails). *)
Definition enriched (E : Env) (m : Message) : Message :=
  match extendMessage E m with
  | Ok m' => m'
  | Throw _ => m
  end.

Definition enriched_photo_message : Message := enriched sample_env photo_message.

Definition channel_post_message : Message :=
  {| m_type := None; chat := Some (mkChat (-1001) "channel"); from := None;
     forward_from := None; forward_from_chat := None; text := Some "news";
     reply_to_message := None; entities := None; contact := None;
     voice := None; document := None; video := None; audio := None;
     photo := None; video_note := None; m_rest := [] |}.

Definition quiet_handler : Handler := fun _ => None.
Definition failing_handler : Handler := fun _ => Some (HandlerError "boom").

(** Registries in which the handlers complete. *)
Definition sample_args : Args :=
  {| privateEvents := [("message_forwards", quiet_handler);
                       ("/^bye$/", quiet_handler);
                       ("text", quiet_handler);
                       ("/^hi$/", quiet_handler);
                       ("buy", quiet_handler)];
     publicEvents := [("channel_post", quiet_handler);
                      ("buy", quiet_handler);
                      ("voice", quiet_handler)] |}.

(** Registries in which the public handlers raise. *)
Definition failing_args : Args :=
  {| privateEvents := [("buy", quiet_handler); ("inline_query", failing_handler)];
     publicEvents := [("channel_post", failing_handler);
                      ("buy", failing_handler)] |}.

Definition buy_query : CallbackQuery :=
  {| cq_id := "q1"; cq_data := "buy"; cq_message := Some channel_post_message |}.

(** Lookups that take half a second, a handler that settles at once. *)
Definition sample_latency : Latency :=
  {| resolve_ms := 500; handler_ms := 0 |}.

Definition voice_metadata : Metadata := {| md_type := "voice" |}.

(** Two self-forwards into chat 5, the second 1200 ms after the first:
    200 ms after the timer of the first has fired, while its lookups
    are still under way. *)
Definition first_forward : Z * Message * Metadata :=
  (0, self_forward 1 "a", voice_metadata).

Definition late_forward : Z * Message * Metadata :=
  (1200, self_forward 2 "b", voice_metadata).


Definition inline_only : Body :=
  {| b_message := None; b_edited_message := None; b_channel_post := None;
     b_callback_query := None;
     b_inline_query := Some {| iq_id := "i1"; chat_type := Some "sender" |} |}.

Definition callback_only : Body :=
  {| b_message := None; b_edited_message := None; b_channel_post := None;
     b_callback_query := Some buy_query; b_inline_query := None |}.

(** ** Vocabulary of the specification *)

(** Which of the four keys that [getMessageFromBody] reads is the only
    one present, and the message object it leads to; [None] when none
    of the four is present.  The [inline_query] key plays no part. *)
Inductive Variant (body : Body) : option (string * Message) -> Prop :=
| no_variant :
    b_message body = None -> b_edited_message body = None ->
    b_channel_post body = None -> b_callback_query body = None ->
    Variant body None
| only_message m :
    b_message body = Some m -> b_edited_message body = None ->
    b_channel_post body = None -> b_callback_query body = None ->
    Variant body (Some ("message", m))
| only_edited_message m :
    b_message body = None -> b_edited_message body = Some m ->
    b_channel_post body = None -> b_callback_query body = None ->
    Variant body (Some ("edited_message", m))
| only_channel_post m :
    b_message body = None -> b_edited_message body = None ->
    b_channel_post body = Some m -> b_callback_query body = None ->
    Variant body (Some ("channel_post", m))
| only_callback_query q m :
    b_message body = None -> b_edited_message body = None ->
    b_channel_post body = None -> b_callback_query body = Some q ->
    cq_message q = Some m ->
    Variant body (Some ("callback_query", m)).

(** A registered key that is shaped like a serialized pattern, is a
    well-formed one, and does not match [txt]; keys of any other shape
    are passed over. *)
Definition passed_over (E : Env) (txt : string) (key : string) : Prop :=
  startsWith key "/" = true -> restoredRegex_exec E key txt = Some false.

(** An attachment block without the keys that enrichment writes. *)
Definition strip_thumb (t : Thumb) : Thumb :=
  {| th_file_id := th_file_id t; th_file := None |}.

Definition strip (a : Attachment) : Attachment :=
  {| a_file_id := a_file_id a; a_file_size := a_file_size a;
     a_thumb := strip_thumb <$> a_thumb a; a_thumbnail := a_thumbnail a;
     a_file := None; a_rest := a_rest a |}.

(** A photo variant with a file identifier and a positive size hint. *)
Definition resolvable (p : Attachment) : Prop :=
  0 < default 0 (a_file_size p) /\ truthy (a_file_id p) = true.

(** What enrichment may do to one photo variant. *)
Definition photo_step (p p' : Attachment) : Prop :=
  (resolvable p /\ exists f, p' = set_file p f) \/ (~ resolvable p /\ p' = p).

Definition no_blocks (m : Message) : Prop :=
  voice m = None /\ document m = None /\ video m = None /\ audio m = None
  /\ photo m = None /\ video_note m = None.

(** Everything but the six attachment blocks. *)
Definition same_frame (m m' : Message) : Prop :=
  m_type m' = m_type m /\ chat m' = chat m /\ from m' = from m
  /\ forward_from m' = forward_from m
  /\ forward_from_chat m' = forward_from_chat m
  /\ text m' = text m /\ reply_to_message m' = reply_to_message m
  /\ entities m' = entities m /\ contact m' = contact m
  /\ m_rest m' = m_rest m.

(** The photo arrays of a message before and after enrichment: same
    length, each variant in its place. *)
Definition photos_step (ps ps' : option (list Attachment)) : Prop :=
  match ps, ps' with
  | Some l, Some l' => Forall2 photo_step l l'
  | None, None => True
  | _, _ => False
  end.

(** The six attachment blocks differ at most by the [file] keys. *)
Definition only_files_added (m m' : Message) : Prop :=
  strip <$> voice m' = strip <$> voice m
  /\ strip <$> document m' = strip <$> document m
  /\ strip <$> video m' = strip <$> video m
  /\ strip <$> audio m' = strip <$> audio m
  /\ strip <$> video_note m' = strip <$> video_note m
  /\ photos_step (photo m) (photo m').

Definition forward_marker (m : Message) : Prop :=
  is_Some (forward_from m) \/ is_Some (forward_from_chat m).

(** No forward marker, or a marker on a message whose chat is not its
    sender. *)
Definition not_self_forward (m : Message) : Prop :=
  ~ forward_marker m
  \/ exists c sender, chat m = Some c /\ from m = Some sender
                      /\ c_id c <> u_id sender.

(** A message with a forward marker that user [key] sends into the
    chat whose identifier is [key] as well. *)
Definition self_forward_of (key : Z) (m : Message) : Prop :=
  forward_marker m
  /\ exists c sender, chat m = Some c /\ from m = Some sender
                      /\ c_id c = key /\ u_id sender = key.

(** ** The webhook entry point *)

(** [{...message, type}]. *)
Definition set_type (message : Message) (type : string) : Message :=
  {| m_type := Some type; chat := chat message; from := from message;
     forward_from := forward_from message;
     forward_from_chat := forward_from_chat message;
     text := text message;
     reply_to_message := reply_to_message message;
     entities := entities message; contact := contact message;
     voice := voice message; document := document message;
     video := video message; audio := audio message;
     photo := photo message; video_note := video_note message;
     m_rest := m_rest message |}.

(** [{...request.body, message: {...message, type}}]. *)
Definition api_update (body : Body) (message : Message) (type : string) : Body :=
  {| b_message := Some (set_type message type);
     b_edited_message := b_edited_message body;
     b_channel_post := b_channel_post body;
     b_callback_query := b_callback_query body;
     b_inline_query := b_inline_query body |}.

(** [api]: the status passed to [response.sendStatus], and the update
    handed to [this.bot.processUpdate] when it is reached.
    [processUpdate] is the method of the bot library: [None] when it
    returns, [Some code] when it throws an error whose
    [response.statusCode] is [code] ([None] for an error without one).
    The errors that [getMessageFromBody] throws carry no [response]. *)
Definition api (processUpdate : Body -> option (option Z)) (body : Body)
  : Z * option Body :=
  match getMessageFromBody body with
  | Ok n =>
      let update := api_update body (n_message n) (n_type n) in
      match processUpdate update with
      | None => (200, Some update)
      | Some statusCode => (default 400 statusCode, Some update)
      end
  | Throw _ => (400, None)
  end.

(** ** The transport chosen by the constructor *)







(** ** Vocabulary for the properties of the whole program *)


(** The event names that the classifier builds itself. *)
Definition structural_names : list string :=
  ["auth_by_contact"; "contact"; "edited_message_text"; "reply_to_message";
   "mention"; "bot_command"].

(** A lookup that the resolver makes succeeds. *)
Definition lookup_ok (E : Env) (fileId : option string) : bool :=
  bool_decide (is_Some (getFile E fileId)).

(** The preview of a block can be resolved and stored: no preview at
    all, or one under [thumb] whose lookup succeeds. *)
Definition thumb_ok (E : Env) (a : Attachment) : bool :=
  match a_thumb a, a_thumbnail a with
  | Some t, _ => lookup_ok E (th_file_id t)
  | None, Some _ => false
  | None, None => true
  end.

Definition plain_ok (E : Env) (b : option Attachment) : bool :=
  match b with
  | Some a => if truthy (a_file_id a) then lookup_ok E (a_file_id a) else true
  | None => true
  end.

Definition with_thumb_ok (E : Env) (b : option Attachment) : bool :=
  match b with
  | Some a =>
      if truthy (a_file_id a)
      then lookup_ok E (a_file_id a) && thumb_ok E a
      else true
  | None => true
  end.

Definition photo_ok (E : Env) (p : Attachment) : bool :=
  if bool_decide (0 < default 0 (a_file_size p)) && truthy (a_file_id p)
  then lookup_ok E (a_file_id p)
  else true.

Definition video_note_ok (E : Env) (b : option Attachment) : bool :=
  match b with
  | Some a => lookup_ok E (a_file_id a) && thumb_ok E a
  | None => true
  end.

(** Every lookup that enrichment makes for [m] succeeds, and no
    preview has to be stored under a [thumb] key that is absent. *)
Definition resolves (E : Env) (m : Message) : bool :=
  plain_ok E (voice m) && with_thumb_ok E (document m)
  && with_thumb_ok E (video m) && plain_ok E (audio m)
  && forallb (photo_ok E) (default [] (photo m))
  && video_note_ok E (video_note m).

(** A block whose preview is under [thumbnail] and not under [thumb]. *)
Definition thumbnail_only (b : option Attachment) : Prop :=
  exists a, b = Some a /\ a_thumb a = None /\ a_thumbnail a <> None.

(** The [file] key [f] holds what resolving [fileId] gives. *)
Definition resolved_as (E : Env) (fileId : option string) (f : option File)
  : Prop :=
  exists path,
    getFile E fileId = Some path
    /\ f = Some {| file_path := path;
                   url := "https://api.telegram.org/file/bot" +:+ token E
                          +:+ "/" +:+ path |}.

(** The registry that the ordinary path selects for a chat. *)
Definition registry_of (A : Args) (scope : Scope) : Registry :=
  match scope with
  | Private => privateEvents A
  | Public => publicEvents A
  end.

Definition scope_of (c : Chat) : Scope :=
  if String.eqb (c_type c) "private" then Private else Public.

(** The block carries a file identifier. *)
Definition has_id (b : option Attachment) : Prop :=
  forall a, b = Some a -> truthy (a_file_id a) = true.

(** The block, when present, is still present in [b'] and its [file]
    key holds what resolving its identifier gives. *)
Definition file_resolved (E : Env) (b b' : option Attachment) : Prop :=
  forall a, b = Some a ->
  exists a', b' = Some a' /\ resolved_as E (a_file_id a) (a_file a').

(** The same for the preview under the [thumb] key of the block. *)
Definition thumb_resolved (E : Env) (b b' : option Attachment) : Prop :=
  forall a t, b = Some a -> a_thumb a = Some t ->
  exists a' t', b' = Some a' /\ a_thumb a' = Some t'
                /\ resolved_as E (th_file_id t) (th_file t').

(** Each photo variant that has a file identifier and a positive size
    carries its resolved file, at the same index. *)
Definition photos_resolved (E : Env) (ps ps' : option (list Attachment)) : Prop :=
  forall l, ps = Some l ->
  exists l', ps' = Some l'
             /\ Forall2 (fun p p' => resolvable p ->
                                     resolved_as E (a_file_id p) (a_file p'))
                  l l'.

(** ** Vocabulary for the aggregation of forwards *)

Definition message_of (u : Z * Message * Metadata) : Message := u.1.2.




(** A non-empty sequence of received messages, each a self-forward in
    chat [key]; [U m metadata] says that [m] was received with
    [metadata]. *)
Definition batch_of (U : Message -> Metadata -> Prop) (key : Z)
    (ms : list Message) : Prop :=
  ms <> []
  /\ Forall (fun m => (exists metadata, U m metadata) /\ self_forward_of key m) ms.

(** [extMessages] is such a sequence after enrichment. *)
Definition flushed_from (E : Env) (U : Message -> Metadata -> Prop) (key : Z)
    (extMessages : list Message) : Prop :=
  exists ms, batch_of U key ms /\ mapM (extendMessage E) ms = Ok extMessages.

(** Where a call of a handler comes from: the flush of a batch, or the
    ordinary path taken by a received message that is not a
    self-forward. *)
Definition invocation_ok (E : Env) (A : Args)
    (U : Message -> Metadata -> Prop) (e : Effect) : Prop :=
  match e with
  | Invoke scope name arg =>
      (scope = Private /\ name = "message_forwards"
       /\ is_Some (lookup_event (privateEvents A) "message_forwards")
       /\ exists key extMessages,
            arg = PForwards extMessages /\ flushed_from E U key extMessages)
      \/ (exists m metadata,
            U m metadata /\ not_self_forward m
            /\ In (Invoke scope name arg) (dispatch E A m metadata).1)
  | _ => True
  end.

(** What holds of the state of the loop whatever has been received:
    every entry refers to an array that was allocated, holds a batch of
    its chat, and is shared with no other entry; every settled
    resolution that is pending, and every call in the log, comes from
    such a batch. *)
Record Inv (E : Env) (A : Args) (U : Message -> Metadata -> Prop)
    (st : State) : Prop := mkInv {
  inv_refs : forall key transaction,
    transactionMessages st !! key = Some transaction ->
    (messages transaction < next_id st)%nat
    /\ exists ms, arrays st !! messages transaction = Some ms
                  /\ batch_of U key ms;
  inv_distinct : forall key key' transaction transaction',
    transactionMessages st !! key = Some transaction ->
    transactionMessages st !! key' = Some transaction' ->
    messages transaction = messages transaction' -> key = key';
  inv_pending : forall key extMessages d,
    In (Resolving key (Ok extMessages) d) (pending st) ->
    flushed_from E U key extMessages;
  inv_log : Forall (invocation_ok E A U) (log st)
}.

(** What holds of the timers whatever has been received: identifiers
    are handed out in increasing order, and the timer that an entry
    remembers, when it is still armed, is a timer of the chat of that
    entry. *)
Record TimerInv (st : State) : Prop := mkTimerInv {
  tinv_entries : forall key transaction,
    transactionMessages st !! key = Some transaction ->
    (timeoutId transaction < next_id st)%nat;
  tinv_timers : forall id key d,
    In (Timer id key d) (pending st) -> (id < next_id st)%nat;
  tinv_owner : forall id key d key' transaction,
    In (Timer id key d) (pending st) ->
    transactionMessages st !! key' = Some transaction ->
    timeoutId transaction = id -> key = key'
}.

(** A voice message that user 6 forwards into the private chat with
    the bot. *)
Definition other_forward : Message :=
  {| m_type := None; chat := Some (mkChat 6 "private");
     from := Some (mkUser 6 false); forward_from := Some (mkUser 1 false);
     forward_from_chat := None; text := None; reply_to_message := None;
     entities := None; contact := None; voice := Some (block "b" 10);
     document := None; video := None; audio := None; photo := None;
     video_note := None; m_rest := [] |}.

(** * Properties *)

(** ** Update normalizer *)

(** C5 (as amended).  A payload in which none of the four keys [message],
    [edited_message], [channel_post], [callback_query] is present, whether
    or not it carries an [inline_query], fails with the unknown-body
    error; a payload in which exactly one of the four is present (for a
    callback query, with its embedded message) is normalized to that
    variant's kind tag, its message, and the two identifiers as strings. *)
Theorem getMessageFromBody_variant (body : Body) (v : option (string * Message)) :
  Variant body v ->
  getMessageFromBody body =
    match v with
    | None => Throw UnknownTelegramBody
    | Some (kind, m) =>
        Ok {| n_type := kind; n_message := m;
              chatId := String_of_id (c_id <$> chat m);
              userId := String_of_id (u_id <$> from m) |}
    end.
Proof.
  intros Hv. unfold getMessageFromBody.
  destruct Hv as [H1 H2 H3 H4 | m H1 H2 H3 H4 | m H1 H2 H3 H4
                 | m H1 H2 H3 H4 | q m H1 H2 H3 H4 Hq];
    rewrite H1; try rewrite H2; try rewrite H3; try rewrite H4;
    cbn; try rewrite Hq; reflexivity.
Qed.

(** The unknown-body failure for a payload with an inline query only:
    the fifth variant is not among those the normalizer recognizes. *)
Lemma getMessageFromBody_inline_only :
  b_inline_query inline_only <> None
  /\ getMessageFromBody inline_only = Throw UnknownTelegramBody
  /\ ~ exists n, getMessageFromBody inline_only = Ok n.
Proof.
  repeat split; [discriminate | ].
  intros [n Hn]. discriminate Hn.
Qed.

Lemma getMessageFromBody_variant_witness :
  getMessageFromBody callback_only =
    Ok {| n_type := "callback_query"; n_message := channel_post_message;
          chatId := "-1001"; userId := "undefined" |}.
Proof.
  apply (getMessageFromBody_variant callback_only
           (Some ("callback_query", channel_post_message))).
  apply (only_callback_query callback_only buy_query); reflexivity.
Defined.

(** A callback query without its embedded message is not reported as
    an unknown body: reading its chat fails first. *)
Lemma getMessageFromBody_callback_without_message (id data : string) :
  getMessageFromBody
    {| b_message := None; b_edited_message := None; b_channel_post := None;
       b_callback_query := Some {| cq_id := id; cq_data := data;
                                   cq_message := None |};
       b_inline_query := None |} = Throw TypeError.
Proof. reflexivity. Qed.

(** ** Event classifier *)




(** Without a matching pattern the same message falls back on its
    structure: the edit comes first. *)
Lemma structural_fallback_sample :
  getEventName sample_env edited_reply_hi {| md_type := "text" |}
    ["text"; "/^bye$/"] = Ok "edited_message_text".
Proof. reflexivity. Qed.

(** A key that starts with a slash but does not spell a pattern makes
    the classification of every text throw. *)
Lemma slash_command_key_throws :
  getEventName sample_env edited_reply_hi {| md_type := "text" |}
    ["/start"; "/^hi$/"] = Throw SyntaxError.
Proof. reflexivity. Qed.

(** Kinds other than text and contact are returned as they are. *)
Lemma getEventName_default (E : Env) (message : Message) (metadata : Metadata)
    (eventsList : list string) :
  md_type metadata <> "contact" -> md_type metadata <> "text" ->
  getEventName E message metadata eventsList = Ok (md_type metadata).
Proof.
  intros Hc Ht. unfold getEventName.
  destruct (String.eqb_spec (md_type metadata) "contact"); [congruence | ].
  destruct (String.eqb_spec (md_type metadata) "text"); [congruence | ].
  reflexivity.
Qed.

(** A contact message with a sender is classified without failure. *)
Lemma getEventName_contact_with_sender (E : Env) (message : Message)
    (sender : User) (c : Contact) (eventsList : list string) :
  from message = Some sender -> contact message = Some c ->
  getEventName E message {| md_type := "contact" |} eventsList =
    Ok (if negb (is_bot sender) && bool_decide (user_id c = Some (u_id sender))
        then "auth_by_contact" else "contact").
Proof.
  intros Hf Hc. unfold getEventName. cbn. rewrite Hf, Hc.
  destruct (is_bot sender); [reflexivity | ].
  cbn. destruct (bool_decide (user_id c = Some (u_id sender))); reflexivity.
Qed.

(** C6, on a contact shared where messages have no sender: the
    classifier reads [is_bot] of the absent sender and throws, whatever
    the registered keys; it returns no event name. *)
Theorem getEventName_contact_without_sender (E : Env) (eventsList : list string) :
  getEventName E contact_without_sender {| md_type := "contact" |} eventsList
  = Throw TypeError.
Proof. reflexivity. Qed.

(** ** Attachment resolver *)

Lemma bind_Ok {A B : Type} (r : result A) (k : A -> result B) (b : B) :
  r ≫= k = Ok b -> exists a, r = Ok a /\ k a = Ok b.
Proof. destruct r as [a | e]; cbn; [eauto | discriminate]. Qed.

Ltac bind_inv H :=
  let a := fresh "x" in
  let Ha := fresh "H" a in
  apply bind_Ok in H; destruct H as (a & Ha & H).

Lemma getTelegramFile_url (E : Env) (fileId : option string) (f : File) :
  getTelegramFile E fileId = Ok f ->
  getFile E fileId = Some (file_path f)
  /\ url f = "https://api.telegram.org/file/bot" +:+ token E +:+ "/"
             +:+ file_path f.
Proof.
  unfold getTelegramFile. destruct (getFile E fileId) as [path | ];
    [ | discriminate].
  intros [= <-]. split; reflexivity.
Qed.

Lemma set_file_same (a : Attachment) (f : File) :
  a_file a = Some f -> set_file a f = a.
Proof. destruct a; cbn; intros ->; reflexivity. Qed.

Lemma extend_thumb_keeps (E : Env) (a a' : Attachment) :
  extend_thumb E a = Ok a' ->
  a_file_id a' = a_file_id a /\ a_file a' = a_file a /\ strip a' = strip a.
Proof.
  unfold extend_thumb.
  destruct (a_thumb a) as [t | ] eqn:Ht.
  - intros H. bind_inv H. injection H as <-. cbn.
    repeat split. unfold strip. cbn. rewrite Ht. reflexivity.
  - destruct (a_thumbnail a) as [t | ].
    + intros H. bind_inv H. discriminate H.
    + intros [= <-]. repeat split.
Qed.

Lemma extend_thumb_again (E : Env) (a a' : Attachment) :
  extend_thumb E a = Ok a' -> extend_thumb E a' = Ok a'.
Proof.
  unfold extend_thumb at 1.
  destruct (a_thumb a) as [t | ] eqn:Ht.
  - intros H. bind_inv H. injection H as <-.
    unfold extend_thumb. cbn. rewrite Hx. cbn.
    apply getTelegramFile_url in Hx as _. reflexivity.
  - destruct (a_thumbnail a) as [t | ] eqn:Hn.
    + intros H. bind_inv H. discriminate H.
    + intros [= <-]. unfold extend_thumb. rewrite Ht, Hn. reflexivity.
Qed.

Lemma resolve_again (E : Env) (a a' : Attachment) (f : File) :
  getTelegramFile E (a_file_id a) = Ok f ->
  extend_thumb E (set_file a f) = Ok a' ->
  getTelegramFile E (a_file_id a') = Ok f
  /\ extend_thumb E (set_file a' f) = Ok a'.
Proof.
  intros Hf Ht.
  destruct (extend_thumb_keeps E _ _ Ht) as (Hid & Hfile & _).
  cbn in Hid, Hfile. rewrite Hid. split; [exact Hf | ].
  rewrite (set_file_same a' f Hfile). exact (extend_thumb_again E _ _ Ht).
Qed.

Lemma extend_plain_again (E : Env) (b b' : option Attachment) :
  extend_plain E b = Ok b' -> extend_plain E b' = Ok b'.
Proof.
  unfold extend_plain at 1. destruct b as [a | ]; [ | intros [= <-]; reflexivity].
  destruct (truthy (a_file_id a)) eqn:Hid.
  - intros H. bind_inv H. injection H as <-.
    unfold extend_plain. cbn. rewrite Hid, Hx. reflexivity.
  - intros [= <-]. unfold extend_plain. rewrite Hid. reflexivity.
Qed.

Lemma extend_with_thumb_again (E : Env) (b b' : option Attachment) :
  extend_with_thumb E b = Ok b' -> extend_with_thumb E b' = Ok b'.
Proof.
  unfold extend_with_thumb at 1.
  destruct b as [a | ]; [ | intros [= <-]; reflexivity].
  destruct (truthy (a_file_id a)) eqn:Hid.
  - intros H. bind_inv H. bind_inv H. injection H as <-.
    destruct (resolve_again E a x0 x Hx Hx0) as [Hf Ht].
    destruct (extend_thumb_keeps E _ _ Hx0) as (Hid' & _). cbn in Hid'.
    unfold extend_with_thumb. rewrite Hf. rewrite Hid', Hid. cbn.
    rewrite Ht. reflexivity.
  - intros [= <-]. unfold extend_with_thumb. rewrite Hid. reflexivity.
Qed.

Lemma extend_video_note_again (E : Env) (b b' : option Attachment) :
  extend_video_note E b = Ok b' -> extend_video_note E b' = Ok b'.
Proof.
  unfold extend_video_note at 1.
  destruct b as [a | ]; [ | intros [= <-]; reflexivity].
  intros H. bind_inv H. bind_inv H. injection H as <-.
  destruct (resolve_again E a x0 x Hx Hx0) as [Hf Ht].
  unfold extend_video_note. rewrite Hf. cbn. rewrite Ht. reflexivity.
Qed.

Lemma extend_photo_again (E : Env) (p p' : Attachment) :
  extend_photo E p = Ok p' -> extend_photo E p' = Ok p'.
Proof.
  unfold extend_photo at 1.
  destruct (bool_decide (0 < default 0 (a_file_size p)) && truthy (a_file_id p))
    eqn:Hc.
  - intros H. bind_inv H. injection H as <-.
    unfold extend_photo. cbn. rewrite Hc, Hx. reflexivity.
  - intros [= <-]. unfold extend_photo. rewrite Hc. reflexivity.
Qed.

Lemma mapM_again {A : Type} (f : A -> result A) (l l' : list A) :
  (forall a a', f a = Ok a' -> f a' = Ok a') ->
  mapM f l = Ok l' -> mapM f l' = Ok l'.
Proof.
  intros Hf. revert l'. induction l as [| a l IH]; intros l'; cbn.
  - intros [= <-]. reflexivity.
  - intros H. bind_inv H. bind_inv H. injection H as <-.
    cbn. rewrite (Hf _ _ Hx). cbn. rewrite (IH _ Hx0). reflexivity.
Qed.

Lemma extend_photos_again (E : Env) (ps ps' : option (list Attachment)) :
  match ps with
  | Some l => l' ← mapM (extend_photo E) l; Ok (Some l')
  | None => Ok None
  end = Ok ps' ->
  match ps' with
  | Some l => l' ← mapM (extend_photo E) l; Ok (Some l')
  | None => Ok None
  end = Ok ps'.
Proof.
  destruct ps as [l | ]; [ | intros [= <-]; reflexivity].
  intros H. bind_inv H. injection H as <-.
  rewrite (mapM_again _ _ _ (extend_photo_again E) Hx). reflexivity.
Qed.

(** C8.  Enriching a message that enrichment returned gives that same
    message again, so every file path and url it carries is the one of
    the first enrichment (the file lookup being a function of the file
    identifier); and a resolved file has the path the lookup returned
    and the url [https://api.telegram.org/file/bot<token>/<path>]. *)
Theorem extendMessage_idempotent (E : Env) (m m1 : Message) :
  extendMessage E m = Ok m1 ->
  extendMessage E m1 = Ok m1
  /\ forall fileId f, getTelegramFile E fileId = Ok f ->
       getFile E fileId = Some (file_path f)
       /\ url f = "https://api.telegram.org/file/bot" +:+ token E +:+ "/"
                  +:+ file_path f.
Proof.
  intros H. split; [ | apply getTelegramFile_url].
  unfold extendMessage in H.
  bind_inv H. bind_inv H. bind_inv H. bind_inv H. bind_inv H. bind_inv H.
  injection H as <-. unfold extendMessage. cbn.
  rewrite (extend_plain_again E _ _ Hx). cbn.
  rewrite (extend_with_thumb_again E _ _ Hx0). cbn.
  rewrite (extend_with_thumb_again E _ _ Hx1). cbn.
  rewrite (extend_plain_again E _ _ Hx2). cbn.
  rewrite (extend_photos_again E _ _ Hx3). cbn.
  rewrite (extend_video_note_again E _ _ Hx4). reflexivity.
Qed.

Lemma extendMessage_idempotent_witness :
  extendMessage sample_env enriched_photo_message = Ok enriched_photo_message
  /\ forall fileId f, getTelegramFile sample_env fileId = Ok f ->
       getFile sample_env fileId = Some (file_path f)
       /\ url f = "https://api.telegram.org/file/bot" +:+ token sample_env
                  +:+ "/" +:+ file_path f.
Proof.
  apply (extendMessage_idempotent sample_env photo_message). reflexivity.
Defined.

Lemma extend_plain_strip (E : Env) (b b' : option Attachment) :
  extend_plain E b = Ok b' -> strip <$> b' = strip <$> b.
Proof.
  unfold extend_plain. destruct b as [a | ]; [ | intros [= <-]; reflexivity].
  destruct (truthy (a_file_id a)).
  - intros H. bind_inv H. injection H as <-. reflexivity.
  - intros [= <-]. reflexivity.
Qed.

Lemma extend_with_thumb_strip (E : Env) (b b' : option Attachment) :
  extend_with_thumb E b = Ok b' -> strip <$> b' = strip <$> b.
Proof.
  unfold extend_with_thumb.
  destruct b as [a | ]; [ | intros [= <-]; reflexivity].
  destruct (truthy (a_file_id a)).
  - intros H. bind_inv H. bind_inv H. injection H as <-.
    destruct (extend_thumb_keeps E _ _ Hx0) as (_ & _ & Hs).
    cbn. rewrite Hs. reflexivity.
  - intros [= <-]. reflexivity.
Qed.

Lemma extend_video_note_strip (E : Env) (b b' : option Attachment) :
  extend_video_note E b = Ok b' -> strip <$> b' = strip <$> b.
Proof.
  unfold extend_video_note.
  destruct b as [a | ]; [ | intros [= <-]; reflexivity].
  intros H. bind_inv H. bind_inv H. injection H as <-.
  destruct (extend_thumb_keeps E _ _ Hx0) as (_ & _ & Hs).
  cbn. rewrite Hs. reflexivity.
Qed.

Lemma extend_photo_step (E : Env) (p p' : Attachment) :
  extend_photo E p = Ok p' -> photo_step p p'.
Proof.
  unfold extend_photo, photo_step, resolvable.
  destruct (bool_decide (0 < default 0 (a_file_size p))) eqn:Hsize; cbn.
  - apply bool_decide_eq_true in Hsize.
    destruct (truthy (a_file_id p)).
    + intros H. bind_inv H. injection H as <-. left. eauto.
    + intros [= <-]. right. split; [ | reflexivity]. intros [_ H]. discriminate H.
  - apply bool_decide_eq_false in Hsize.
    intros [= <-]. right. split; [ | reflexivity]. intros [H _]. exact (Hsize H).
Qed.

Lemma mapM_Forall2 {A B : Type} (f : A -> result B) (R : A -> B -> Prop)
    (l : list A) (l' : list B) :
  (forall a b, f a = Ok b -> R a b) ->
  mapM f l = Ok l' -> Forall2 R l l'.
Proof.
  intros Hf. revert l'. induction l as [| a l IH]; intros l'; cbn.
  - intros [= <-]. constructor.
  - intros H. bind_inv H. bind_inv H. injection H as <-.
    constructor; [exact (Hf _ _ Hx) | exact (IH _ Hx0)].
Qed.

(** C9.  A message with none of the six attachment blocks is returned
    as it is.  Whenever enrichment returns, every field other than the
    six blocks is unchanged; the [voice], [document], [video], [audio]
    and [video_note] blocks differ from the original ones at most by
    their [file] keys; and the [photo] array has the same length, each
    variant in its place: a variant with a file identifier and a
    positive size hint is a copy with a [file] key, any other variant is
    unchanged. *)
Theorem extendMessage_frame (E : Env) (m : Message) :
  (no_blocks m -> extendMessage E m = Ok m)
  /\ (forall m', extendMessage E m = Ok m' ->
        same_frame m m' /\ only_files_added m m').
Proof.
  split.
  - intros (Hv & Hd & Hvi & Ha & Hp & Hn).
    destruct m; cbn in *; subst. reflexivity.
  - intros m' H. unfold extendMessage in H.
    bind_inv H. bind_inv H. bind_inv H. bind_inv H. bind_inv H. bind_inv H.
    injection H as <-. split.
    + repeat split.
    + unfold only_files_added; cbn.
      rewrite (extend_plain_strip E _ _ Hx),
        (extend_with_thumb_strip E _ _ Hx0),
        (extend_with_thumb_strip E _ _ Hx1),
        (extend_plain_strip E _ _ Hx2),
        (extend_video_note_strip E _ _ Hx4).
      repeat split.
      destruct (photo m) as [ps | ].
      * bind_inv Hx3. injection Hx3 as <-. cbn.
        exact (mapM_Forall2 _ _ _ _ (extend_photo_step E) Hx5).
      * injection Hx3 as <-. exact I.
Qed.

Lemma extendMessage_frame_witness :
  extendMessage sample_env empty_message = Ok empty_message
  /\ same_frame photo_message enriched_photo_message
  /\ only_files_added photo_message enriched_photo_message.
Proof.
  split.
  - apply (proj1 (extendMessage_frame sample_env empty_message)).
    repeat split.
  - apply (proj2 (extendMessage_frame sample_env photo_message)).
    reflexivity.
Defined.

(** The sample photo array after enrichment: the first and third
    variants carry a file, the second, which has no size hint, is the
    original one. *)
Lemma enriched_photo_sample :
  photo enriched_photo_message =
    Some [set_file (block "small" 100)
            {| file_path := "files/small";
               url := "https://api.telegram.org/file/bot123:ABC/files/small" |};
          {| a_file_id := Some "mid"; a_file_size := None; a_thumb := None;
             a_thumbnail := None; a_file := None; a_rest := [] |};
          set_file (block "large" 900)
            {| file_path := "files/large";
               url := "https://api.telegram.org/file/bot123:ABC/files/large" |}].
Proof. reflexivity. Qed.

(** A document that carries its preview under [thumbnail] only: the
    preview is looked up, and storing the result under [thumb] fails. *)
Lemma extendMessage_thumbnail_only (E : Env) (m : Message) (id : string)
    (t : Thumb) (path tpath : string) :
  voice m = None ->
  document m = Some {| a_file_id := Some id; a_file_size := None;
                       a_thumb := None; a_thumbnail := Some t;
                       a_file := None; a_rest := [] |} ->
  truthy (Some id) = true ->
  getFile E (Some id) = Some path -> getFile E (th_file_id t) = Some tpath ->
  extendMessage E m = Throw TypeError.
Proof.
  intros Hv Hd Hid Hf Ht. unfold extendMessage. rewrite Hv, Hd. cbn.
  cbn in Hid. rewrite Hid. unfold getTelegramFile. rewrite Hf. cbn.
  unfold extend_thumb, getTelegramFile. cbn. rewrite Ht. reflexivity.
Qed.

(** ** Dispatcher *)

(** On the ordinary path a failure of the handler is handed to the error
    channel and the listener completes. *)
Lemma invoke_guarded_reports (scope : Scope) (events : Registry)
    (unknown eventName : string) (message : Message) (handler : Handler)
    (error : Error) :
  lookup_event events eventName = Some handler ->
  handler (PMessage message) = Some error ->
  invoke_guarded scope events unknown eventName message =
    [Invoke scope eventName (PMessage message); EmitError error].
Proof. intros Hl Hh. unfold invoke_guarded. rewrite Hl, Hh. reflexivity. Qed.

(** With no handler under the event name, the ordinary path warns and
    calls nothing. *)
Lemma invoke_guarded_unknown (scope : Scope) (events : Registry)
    (unknown eventName : string) (message : Message) :
  lookup_event events eventName = None ->
  invoke_guarded scope events unknown eventName message =
    [Warn (unknown +:+ eventName)].
Proof. intros Hl. unfold invoke_guarded. rewrite Hl. reflexivity. Qed.

(** Once the message is enriched and classified, the ordinary path never
    rejects, whatever the handler does. *)
Lemma dispatch_isolates_handler (E : Env) (A : Args) (message message' : Message)
    (metadata : Metadata) (c : Chat) (eventName : string) :
  extendMessage E message = Ok message' ->
  chat message' = Some c ->
  getEventName E message' metadata
    (ownKeys (if String.eqb (c_type c) "private"
              then privateEvents A else publicEvents A)) = Ok eventName ->
  (dispatch E A message metadata).2 = Fulfilled.
Proof.
  intros He Hc Hn. unfold dispatch. rewrite He, Hc.
  destruct (String.eqb (c_type c) "private"); rewrite Hn; reflexivity.
Qed.

(** The flush path hands a failure of the [message_forwards] handler,
    and a failure of the lookups, to the error channel. *)
Lemma flush_reports_failure (A : Args) (L : Latency) (st : State) (key : Z)
    (error : Error) :
  log (on_handled st key (Some error)) = log st ++ [EmitError error]
  /\ log (on_resolved A L st key (Throw error)) = log st ++ [EmitError error].
Proof. split; reflexivity. Qed.

(** The three other listeners call the handler outside any [try]: its
    failure rejects the promise of the listener. *)
Lemma invoke_then_rejects (scope : Scope) (events : Registry) (name : string)
    (arg : Payload) (rest : list Effect * Settled) (handler : Handler)
    (error : Error) :
  lookup_event events name = Some handler ->
  handler arg = Some error ->
  invoke_then scope events name arg rest = ([Invoke scope name arg], Rejected error).
Proof. intros Hl Hh. unfold invoke_then. rewrite Hl, Hh. reflexivity. Qed.

(** C2, on a channel post whose registered handler raises: the listener
    has no [try] around the call, the error is not handed to the error
    channel, and the promise of the listener rejects with it unobserved. *)
Theorem channel_post_failure_unreported :
  on_channel_post failing_args channel_post_message =
    ([Invoke Public "channel_post" (PMessage channel_post_message)],
     Rejected (HandlerError "boom"))
  /\ observed (on_channel_post failing_args channel_post_message) =
       [Invoke Public "channel_post" (PMessage channel_post_message);
        Unhandled (HandlerError "boom")]
  /\ ~ In (EmitError (HandlerError "boom"))
         (observed (on_channel_post failing_args channel_post_message)).
Proof.
  repeat split.
  cbn. intros [H | [H | []]]; discriminate H.
Qed.

(** The same failure on the ordinary path of the [message] listener is
    reported: a voice message in a group whose handler raises. *)
Lemma message_failure_reported :
  dispatch sample_env
    {| privateEvents := []; publicEvents := [("voice", failing_handler)] |}
    (group_forward 1 "a") voice_metadata =
  ([Invoke Public "voice" (PMessage (enriched sample_env (group_forward 1 "a")));
    EmitError (HandlerError "boom")], Fulfilled).
Proof. reflexivity. Qed.

(** A failing inline-query handler is not reported either. *)
Lemma inline_query_failure_unreported :
  observed (on_inline_query failing_args
              {| iq_id := "i1"; chat_type := Some "sender" |}) =
    [Invoke Private "inline_query"
       (PInline {| iq_id := "i1"; chat_type := Some "sender" |});
     Unhandled (HandlerError "boom")].
Proof. reflexivity. Qed.

(** X29.  When the public handler of a callback value completes, the
    private registry is consulted next, and both handlers are called in
    turn, the public one first, with the same argument. *)
Lemma callback_query_both (A : Args) (query : CallbackQuery)
    (hpub hpriv : Handler) :
  lookup_event (publicEvents A) (cq_data query) = Some hpub ->
  lookup_event (privateEvents A) (cq_data query) = Some hpriv ->
  hpub (PCallback (cq_id query) (cq_message query)) = None ->
  (on_callback_query A query).1 =
    [Invoke Public (cq_data query) (PCallback (cq_id query) (cq_message query));
     Invoke Private (cq_data query) (PCallback (cq_id query) (cq_message query))].
Proof.
  intros Hpub Hpriv Hok. unfold on_callback_query, invoke_then.
  rewrite Hpub, Hok, Hpriv.
  destruct (hpriv _); reflexivity.
Qed.

(** A callback value registered in one registry only reaches that one. *)
Lemma callback_query_one (A : Args) (query : CallbackQuery) :
  (lookup_event (publicEvents A) (cq_data query) = None ->
   forall h, lookup_event (privateEvents A) (cq_data query) = Some h ->
   (on_callback_query A query).1 =
     [Invoke Private (cq_data query)
        (PCallback (cq_id query) (cq_message query))])
  /\ (lookup_event (privateEvents A) (cq_data query) = None ->
      forall h, lookup_event (publicEvents A) (cq_data query) = Some h ->
      (on_callback_query A query).1 =
        [Invoke Public (cq_data query)
           (PCallback (cq_id query) (cq_message query))]).
Proof.
  unfold on_callback_query, invoke_then. split.
  - intros Hpub h Hpriv. rewrite Hpub, Hpriv. destruct (h _); reflexivity.
  - intros Hpriv h Hpub. rewrite Hpub, Hpriv. destruct (h _); reflexivity.
Qed.

(** C7, on a callback value registered in both registries whose public
    handler raises: the listener rejects at the first call and the
    private handler, although registered, is never called. *)
Theorem callback_query_private_skipped :
  is_Some (lookup_event (publicEvents failing_args) (cq_data buy_query))
  /\ is_Some (lookup_event (privateEvents failing_args) (cq_data buy_query))
  /\ on_callback_query failing_args buy_query =
       ([Invoke Public "buy" (PCallback "q1" (Some channel_post_message))],
        Rejected (HandlerError "boom")).
Proof. repeat split; eexists; reflexivity. Qed.

(** With handlers that complete, both are called. *)
Lemma callback_query_both_sample :
  on_callback_query sample_args buy_query =
    ([Invoke Public "buy" (PCallback "q1" (Some channel_post_message));
      Invoke Private "buy" (PCallback "q1" (Some channel_post_message))],
     Fulfilled).
Proof. reflexivity. Qed.

(** ** Forward aggregation *)

Lemma record_frame (st : State) (effects : list Effect) :
  transactionMessages (record st effects) = transactionMessages st
  /\ arrays (record st effects) = arrays st
  /\ pending (record st effects) = pending st
  /\ next_id (record st effects) = next_id st.
Proof. repeat split. Qed.






(** C3, on two self-forwards 1200 ms apart when the lookups of a flush
    take 500 ms: the second one arrives while the first batch is being
    flushed.  The handler is called once, with the first message only;
    afterwards the table is empty and nothing is pending, so the second
    message is never handed to any handler. *)
Theorem forward_during_flush_lost :
  flushed (run sample_env sample_args sample_latency
             [first_forward; late_forward] 10000)
    = [[enriched sample_env (self_forward 1 "a")]]
  /\ pending (run sample_env sample_args sample_latency
                [first_forward; late_forward] 10000) = []
  /\ transactionMessages (run sample_env sample_args sample_latency
                            [first_forward; late_forward] 10000) = ∅.
Proof. vm_compute. repeat split. Qed.

(** Two self-forwards 200 ms apart: one batch, both messages in order. *)
Lemma forwards_within_quiet_period_sample :
  flushed (run sample_env sample_args sample_latency
             [first_forward; (200, self_forward 2 "b", voice_metadata)] 10000)
    = [[enriched sample_env (self_forward 1 "a");
        enriched sample_env (self_forward 2 "b")]].
Proof. vm_compute. reflexivity. Qed.

(** Two self-forwards 1600 ms apart, the first flush being over when
    the second arrives: two batches. *)
Lemma forwards_after_flush_sample :
  flushed (run sample_env sample_args sample_latency
             [first_forward; (1600, self_forward 2 "b", voice_metadata)] 10000)
    = [[enriched sample_env (self_forward 1 "a")];
       [enriched sample_env (self_forward 2 "b")]].
Proof. vm_compute. reflexivity. Qed.

(** ** The event loop runs out of work, not of fuel *)

Lemma work_app (ps qs : list Pending) :
  work (ps ++ qs) = (work ps + work qs)%nat.
Proof. induction ps as [| p ps IH]; cbn; [reflexivity | ]. rewrite IH. lia. Qed.

Lemma work_filter (f : Pending -> bool) (ps : list Pending) :
  (work (filter (fun p => f p = false) ps) <= work ps)%nat.
Proof.
  induction ps as [| p ps IH]; [cbn; lia | ].
  rewrite filter_cons. destruct (decide (f p = false)); cbn; lia.
Qed.

Lemma min_due_None (ps : list Pending) : min_due ps = None -> ps = [].
Proof. destruct ps; [reflexivity | discriminate]. Qed.

Lemma min_due_Some (ps : list Pending) (d : Z) :
  min_due ps = Some d ->
  Forall (fun p => d <= due_of p) ps /\ exists p, In p ps /\ due_of p = d.
Proof.
  revert d. induction ps as [| p ps IH]; intros d; [discriminate | ].
  cbn [min_due]. destruct (min_due ps) as [d' | ] eqn:Hd; intros [= Hmin]; subst d.
  - destruct (IH d' eq_refl) as (Hall & q & Hq & Hdq). split.
    + constructor; [lia | ].
      eapply Forall_impl; [exact Hall | ]. cbn. intros; lia.
    + destruct (Z.min_spec (due_of p) d') as [[_ ->] | [_ ->]].
      * exists p. split; [left; reflexivity | reflexivity].
      * exists q. split; [right; exact Hq | exact Hdq].
  - apply min_due_None in Hd. subst ps. split.
    + constructor; [lia | constructor].
    + exists p. split; [left; reflexivity | reflexivity].
Qed.

Lemma take_due_Some (d : Z) (ps : list Pending) :
  (exists p, In p ps /\ due_of p = d) ->
  exists p rest, take_due d ps = Some (p, rest) /\ due_of p = d
                 /\ work ps = (weight p + work rest)%nat
                 /\ forall q, In q rest -> In q ps.
Proof.
  induction ps as [| a ps IH]; intros (p & Hin & Hd); [destruct Hin | ].
  cbn. destruct (due_of a =? d) eqn:Ha.
  - apply Z.eqb_eq in Ha. exists a, ps. repeat split; auto.
  - destruct IH as (q & rest & Ht & Hq & Hw & Hsub).
    { destruct Hin as [-> | Hin]; [apply Z.eqb_neq in Ha; contradiction | eauto]. }
    rewrite Ht. exists q, (a :: rest). repeat split; [exact Hq | cbn; lia | ].
    intros r [-> | Hr]; [left; reflexivity | right; exact (Hsub r Hr)].
Qed.

Lemma run_pending_work (E : Env) (A : Args) (L : Latency) (st : State)
    (p : Pending) :
  (work (pending (run_pending E A L st p)) < weight p + work (pending st))%nat
  /\ now (run_pending E A L st p) = now st.
Proof.
  destruct p as [id key d | key [exts | error] d | key [error | ] d]; cbn.
  - unfold on_timeout. destruct (transactionMessages st !! key) as [tr | ];
      [ | split; [lia | reflexivity]].
    cbn. rewrite work_app. cbn.
    pose proof (work_filter (is_timer (timeoutId tr)) (pending st)).
    split; [lia | reflexivity].
  - destruct (lookup_event (privateEvents A) "message_forwards"); cbn.
    + rewrite work_app. cbn. split; [lia | reflexivity].
    + split; [lia | reflexivity].
  - split; [lia | reflexivity].
  - split; [lia | reflexivity].
  - split; [lia | reflexivity].
Qed.

(** With fuel beyond the work that is pending, the loop stops because
    nothing is due any more: the clock has reached [t] and every item
    left is due later. *)
Lemma advance_settles (E : Env) (A : Args) (L : Latency) (t : Z) :
  forall (fuel : nat) (st : State),
    (work (pending st) < fuel)%nat ->
    now (advance fuel E A L t st) = Z.max (now st) t
    /\ Forall (fun p => t < due_of p) (pending (advance fuel E A L t st)).
Proof.
  induction fuel as [| fuel IH]; intros st Hfuel; [lia | ].
  cbn. destruct (min_due (pending st)) as [d | ] eqn:Hmin.
  - destruct (min_due_Some _ _ Hmin) as (Hall & Hex).
    destruct (d <=? t) eqn:Hdt.
    + apply Z.leb_le in Hdt.
      destruct (take_due_Some d (pending st) Hex) as (p & rest & -> & _ & Hw & _).
      set (st1 := with_pending (with_now st (Z.max (now st) d)) rest).
      destruct (run_pending_work E A L st1 p) as [Hlt Hnow].
      destruct (IH (run_pending E A L st1 p)) as [Hn Hp].
      { subst st1. cbn in Hlt. lia. }
      split; [ | exact Hp]. rewrite Hn, Hnow. subst st1. cbn. lia.
    + apply Z.leb_gt in Hdt. cbn. split; [reflexivity | ].
      eapply Forall_impl; [exact Hall | ]. cbn. intros; lia.
  - apply min_due_None in Hmin. cbn. rewrite Hmin.
    split; [reflexivity | constructor].
Qed.

Lemma advance_to_settles (E : Env) (A : Args) (L : Latency) (t : Z) (st : State) :
  now (advance_to E A L t st) = Z.max (now st) t
  /\ Forall (fun p => t < due_of p) (pending (advance_to E A L t st)).
Proof. apply advance_settles. lia. Qed.

(** ** Debounce on an idle table *)

Lemma on_message_self_forward (E : Env) (A : Args) (st : State) (key : Z)
    (message : Message) (metadata : Metadata) :
  self_forward_of key message ->
  on_message E A st message metadata = on_forward st key message.
Proof.
  intros (Hmark & c & sender & Hc & Hf & Hck & Hsk). unfold on_message.
  assert (bool_decide (is_Some (forward_from message))
          || bool_decide (is_Some (forward_from_chat message)) = true) as ->.
  { apply orb_true_iff.
    destruct Hmark as [H | H]; [left | right]; apply bool_decide_eq_true_2, H. }
  rewrite Hc, Hf, Hck, Hsk, Z.eqb_refl. reflexivity.
Qed.

Lemma advance_run (E : Env) (A : Args) (L : Latency) (fuel : nat) (t d : Z)
    (st : State) (p : Pending) (rest : list Pending) :
  min_due (pending st) = Some d -> d <= t ->
  take_due d (pending st) = Some (p, rest) ->
  advance (S fuel) E A L t st =
    advance fuel E A L t
      (run_pending E A L (with_pending (with_now st (Z.max (now st) d)) rest) p).
Proof.
  intros Hmin Hle Htake. cbn [advance]. rewrite Hmin, Htake.
  apply Z.leb_le in Hle. rewrite Hle. reflexivity.
Qed.

Lemma advance_stop (E : Env) (A : Args) (L : Latency) (fuel : nat) (t : Z)
    (st : State) :
  pending st = [] ->
  advance (S fuel) E A L t st = with_now st (Z.max (now st) t).
Proof. intros Hp. cbn [advance]. rewrite Hp. reflexivity. Qed.

Lemma advance_wait (E : Env) (A : Args) (L : Latency) (fuel : nat) (t d : Z)
    (st : State) :
  min_due (pending st) = Some d -> t < d ->
  advance (S fuel) E A L t st = with_now st (Z.max (now st) t).
Proof.
  intros Hmin Hlt. cbn [advance]. rewrite Hmin.
  apply Z.leb_gt in Hlt. rewrite Hlt. reflexivity.
Qed.


Lemma on_timeout_eq (E : Env) (L : Latency) (st : State) (key : Z)
    (transaction : Transaction) :
  transactionMessages st !! key = Some transaction ->
  on_timeout E L st key =
    {| now := now st; transactionMessages := transactionMessages st;
       arrays := arrays st; next_id := next_id st;
       pending :=
         filter (fun p => is_timer (timeoutId transaction) p = false) (pending st)
         ++ [Resolving key
               (mapM (extendMessage E)
                  (default [] (arrays st !! messages transaction)))
               (now st + resolve_ms L)];
       log := log st |}.
Proof. intros H. unfold on_timeout. rewrite H. reflexivity. Qed.

Lemma on_resolved_eq (A : Args) (L : Latency) (st : State) (key : Z)
    (extMessages : list Message) (handler : Handler) :
  lookup_event (privateEvents A) "message_forwards" = Some handler ->
  on_resolved A L st key (Ok extMessages) =
    {| now := now st; transactionMessages := transactionMessages st;
       arrays := arrays st; next_id := next_id st;
       pending := pending st ++ [Handling key (handler (PForwards extMessages))
                                   (now st + handler_ms L)];
       log := log st ++ [Invoke Private "message_forwards"
                           (PForwards extMessages)] |}.
Proof. intros H. unfold on_resolved. rewrite H. reflexivity. Qed.

Lemma on_handled_eq (st : State) (key : Z) (outcome : option Error) :
  on_handled st key outcome =
    {| now := now st;
       transactionMessages := delete key (transactionMessages st);
       arrays := arrays st; next_id := next_id st; pending := pending st;
       log := log st ++ match outcome with
                        | Some error => [EmitError error]
                        | None => []
                        end |}.
Proof.
  destruct outcome; unfold on_handled, finish, with_table, record; cbn;
    [reflexivity | rewrite app_nil_r; reflexivity].
Qed.

Ltac state_simpl :=
  unfold with_pending, with_now;
  cbn [now transactionMessages arrays next_id pending log].

(** A flush that nothing interrupts: the timer fires, the batch is
    resolved, the handler is called with it, and the entry is deleted. *)
Lemma flush_single (E : Env) (A : Args) (L : Latency) (st : State)
    (id : nat) (key d horizon : Z) (transaction : Transaction)
    (batch extMessages : list Message) (handler : Handler) :
  pending st = [Timer id key d] ->
  transactionMessages st !! key = Some transaction ->
  arrays st !! messages transaction = Some batch ->
  mapM (extendMessage E) batch = Ok extMessages ->
  lookup_event (privateEvents A) "message_forwards" = Some handler ->
  0 <= resolve_ms L -> 0 <= handler_ms L ->
  now st <= d -> d + resolve_ms L + handler_ms L <= horizon ->
  advance_to E A L horizon st =
    {| now := horizon;
       transactionMessages := delete key (transactionMessages st);
       arrays := arrays st; next_id := next_id st; pending := [];
       log := log st ++ Invoke Private "message_forwards" (PForwards extMessages)
                        :: match handler (PForwards extMessages) with
                           | Some error => [EmitError error]
                           | None => []
                           end |}.
Proof.
  intros Hp Ht Ha Hm Hh Hr Hhm Hnow Hhor.
  unfold advance_to. rewrite Hp. cbn [work weight Nat.add].
  rewrite (advance_run E A L _ horizon d _ (Timer id key d) []);
    [ | rewrite Hp; reflexivity | lia
      | rewrite Hp; cbn; rewrite Z.eqb_refl; reflexivity].
  cbn [run_pending]. rewrite (on_timeout_eq E L _ key transaction); [ | exact Ht].
  state_simpl. rewrite filter_nil, Ha. cbn [default from_option Datatypes.id app]. rewrite Hm.
  rewrite (advance_run E A L _ horizon (Z.max (now st) d + resolve_ms L) _
             (Resolving key (Ok extMessages) (Z.max (now st) d + resolve_ms L)) []);
    [ | reflexivity | cbn; lia | cbn; rewrite Z.eqb_refl; reflexivity].
  cbn [run_pending]. rewrite (on_resolved_eq A L _ key extMessages handler Hh).
  state_simpl. cbn [app].
  match goal with
  | |- advance _ _ _ _ _ {| pending := [Handling _ _ ?d'] |} = _ =>
      rewrite (advance_run E A L _ horizon d' _
                 (Handling key (handler (PForwards extMessages)) d') []);
        [ | reflexivity | cbn; lia | cbn; rewrite Z.eqb_refl; reflexivity]
  end.
  cbn [run_pending]. rewrite on_handled_eq. state_simpl.
  rewrite advance_stop; [ | reflexivity]. state_simpl.
  rewrite <- app_assoc. cbn [app].
  f_equal. lia.
Qed.

Lemma advance_to_idle (E : Env) (A : Args) (L : Latency) (t : Z) (st : State) :
  pending st = [] -> now st <= t ->
  advance_to E A L t st = with_now st t.
Proof.
  intros Hp Hnow. unfold advance_to. rewrite advance_stop; [ | exact Hp].
  rewrite Z.max_r; [reflexivity | exact Hnow].
Qed.

Lemma advance_to_wait (E : Env) (A : Args) (L : Latency) (t d : Z) (st : State)
    (id : nat) (key : Z) :
  pending st = [Timer id key d] -> now st <= t -> t < d ->
  advance_to E A L t st = with_now st t.
Proof.
  intros Hp Hnow Hlt. unfold advance_to.
  rewrite (advance_wait E A L _ t d); [ | rewrite Hp; reflexivity | exact Hlt].
  rewrite Z.max_r; [reflexivity | exact Hnow].
Qed.

(** The first self-forward of a chat: a new array holding the message,
    a new entry, and a timer one quiet period from now. *)
Lemma on_forward_first_eq (st : State) (key : Z) (message : Message) :
  transactionMessages st !! key = None ->
  on_forward st key message =
    {| now := now st;
       transactionMessages :=
         <[key := {| messages := next_id st; timeoutId := S (next_id st) |}]>
           (transactionMessages st);
       arrays := <[next_id st := [message]]> (arrays st);
       next_id := S (S (next_id st));
       pending := pending st ++ [Timer (S (next_id st)) key (now st + FORWARD_TIME)];
       log := log st |}.
Proof.
  intros Hnone. unfold on_forward. rewrite Hnone.
  cbn [now transactionMessages arrays next_id pending log].
  rewrite alter_insert_eq. reflexivity.
Qed.

(** A self-forward for a chat that has an entry: the timer of the entry
    is cancelled, the message is pushed on the array of the entry, and
    a new timer is armed one quiet period from now. *)
Lemma on_forward_again_eq (st : State) (key : Z) (message : Message)
    (transaction : Transaction) (batch : list Message) :
  transactionMessages st !! key = Some transaction ->
  arrays st !! messages transaction = Some batch ->
  on_forward st key message =
    {| now := now st;
       transactionMessages :=
         <[key := {| messages := messages transaction; timeoutId := next_id st |}]>
           (transactionMessages st);
       arrays := <[messages transaction := batch ++ [message]]> (arrays st);
       next_id := S (next_id st);
       pending :=
         filter (fun p => is_timer (timeoutId transaction) p = false) (pending st)
         ++ [Timer (next_id st) key (now st + FORWARD_TIME)];
       log := log st |}.
Proof.
  intros Hsome Harr. unfold on_forward. rewrite Hsome.
  unfold clearTimeout, with_pending.
  cbn [now transactionMessages arrays next_id pending log].
  rewrite <- (insert_id (arrays st) _ _ Harr) at 1.
  rewrite alter_insert_eq. reflexivity.
Qed.

(** Two self-forwards of one chat less than the quiet period apart: the
    second cancels the timer of the first and arms one a quiet period
    after its own arrival; when that one has fired and the flush is
    over, the handler has been called once, with both messages in
    order of arrival. *)
Lemma forwards_within_quiet_period (E : Env) (A : Args) (L : Latency) (key : Z)
    (m1 m2 : Message) (md1 md2 : Metadata) (t1 t2 horizon : Z)
    (handler : Handler) (extMessages : list Message) :
  self_forward_of key m1 -> self_forward_of key m2 ->
  0 <= t1 <= t2 -> t2 < t1 + FORWARD_TIME ->
  0 <= resolve_ms L -> 0 <= handler_ms L ->
  lookup_event (privateEvents A) "message_forwards" = Some handler ->
  mapM (extendMessage E) [m1; m2] = Ok extMessages ->
  t2 + FORWARD_TIME + resolve_ms L + handler_ms L <= horizon ->
  flushed (run E A L [(t1, m1, md1); (t2, m2, md2)] horizon) = [extMessages].
Proof.
  intros Hm1 Hm2 Ht1 Ht2 Hr Hh Hl Hext Hhor.
  unfold run. cbn [foldl]. unfold deliver at 2. cbn [fst snd].
  rewrite (advance_to_idle E A L t1 init); [ | reflexivity | cbn; lia].
  rewrite (on_message_self_forward E A _ key m1 md1 Hm1).
  rewrite on_forward_first_eq; [ | apply lookup_empty].
  state_simpl. cbn [init now transactionMessages arrays next_id pending log app].
  unfold deliver. cbn [fst snd].
  rewrite (advance_to_wait E A L t2 (t1 + FORWARD_TIME) _ 1%nat key);
    [ | reflexivity | cbn; unfold FORWARD_TIME; lia | unfold FORWARD_TIME in *; lia].
  rewrite (on_message_self_forward E A _ key m2 md2 Hm2).
  rewrite (on_forward_again_eq _ key m2 {| messages := 0; timeoutId := 1 |} [m1]);
    [ | apply lookup_insert_eq | apply lookup_insert_eq].
  state_simpl. cbn [messages timeoutId].
  rewrite filter_cons_False; [ | cbn; congruence]. rewrite filter_nil.
  cbn [app].
  erewrite (flush_single E A L _ 2%nat key (t2 + FORWARD_TIME) horizon
             {| messages := 0; timeoutId := 2 |} [m1; m2] extMessages handler);
    [ | reflexivity | apply lookup_insert_eq | apply lookup_insert_eq
      | exact Hext | exact Hl | exact Hr | exact Hh | cbn; unfold FORWARD_TIME; lia | unfold FORWARD_TIME in *; lia].
  unfold flushed. cbn [log app omap].
  destruct (handler (PForwards extMessages)); reflexivity.
Qed.

(** X24.  Two self-forwards of one chat, the second arriving when the
    flush of the first is over: two batches of one message each. *)
Lemma forwards_after_flush (E : Env) (A : Args) (L : Latency) (key : Z)
    (m1 m2 : Message) (md1 md2 : Metadata) (t1 t2 horizon : Z)
    (handler : Handler) (ext1 ext2 : list Message) :
  self_forward_of key m1 -> self_forward_of key m2 ->
  0 <= t1 ->
  t1 + FORWARD_TIME + resolve_ms L + handler_ms L <= t2 ->
  0 <= resolve_ms L -> 0 <= handler_ms L ->
  lookup_event (privateEvents A) "message_forwards" = Some handler ->
  mapM (extendMessage E) [m1] = Ok ext1 ->
  mapM (extendMessage E) [m2] = Ok ext2 ->
  t2 + FORWARD_TIME + resolve_ms L + handler_ms L <= horizon ->
  flushed (run E A L [(t1, m1, md1); (t2, m2, md2)] horizon) = [ext1; ext2].
Proof.
  intros Hm1 Hm2 Ht1 Ht2 Hr Hh Hl Hext1 Hext2 Hhor.
  unfold run. cbn [foldl]. unfold deliver at 2. cbn [fst snd].
  rewrite (advance_to_idle E A L t1 init); [ | reflexivity | cbn; lia].
  rewrite (on_message_self_forward E A _ key m1 md1 Hm1).
  rewrite on_forward_first_eq; [ | apply lookup_empty].
  state_simpl. cbn [init now transactionMessages arrays next_id pending log app].
  unfold deliver. cbn [fst snd].
  erewrite (flush_single E A L _ 1%nat key (t1 + FORWARD_TIME) t2
             {| messages := 0; timeoutId := 1 |} [m1] ext1 handler);
    [ | reflexivity | apply lookup_insert_eq | apply lookup_insert_eq
      | exact Hext1 | exact Hl | exact Hr | exact Hh | cbn; unfold FORWARD_TIME; lia | unfold FORWARD_TIME in *; lia].
  cbn [now transactionMessages arrays next_id pending log app].
  rewrite (on_message_self_forward E A _ key m2 md2 Hm2).
  rewrite on_forward_first_eq; [ | apply lookup_delete_eq].
  cbn [now transactionMessages arrays next_id pending log app].
  erewrite (flush_single E A L _ 3%nat key (t2 + FORWARD_TIME) horizon
             {| messages := 2; timeoutId := 3 |} [m2] ext2 handler);
    [ | reflexivity | apply lookup_insert_eq | apply lookup_insert_eq
      | exact Hext2 | exact Hl | exact Hr | exact Hh | cbn; unfold FORWARD_TIME; lia | unfold FORWARD_TIME in *; lia].
  unfold flushed. cbn [log app omap].
  destruct (handler (PForwards ext1)), (handler (PForwards ext2)); reflexivity.
Qed.

(** X25.  A self-forward that arrives after the timer of the previous one
    has fired and before its lookups have settled, the flush ending
    before the new timer fires: the handler is called once, with the first
    message; the entry and timer that the second arrival stored are
    gone when the flush ends, and its message stays in an array that
    nothing refers to. *)
Lemma late_forward_is_dropped (E : Env) (A : Args) (L : Latency) (key : Z)
    (m1 m2 : Message) (md1 md2 : Metadata) (t1 t2 horizon : Z)
    (handler : Handler) (ext1 : list Message) :
  self_forward_of key m1 -> self_forward_of key m2 ->
  0 <= t1 ->
  t1 + FORWARD_TIME <= t2 ->
  t2 < t1 + FORWARD_TIME + resolve_ms L ->
  0 <= handler_ms L ->
  t1 + FORWARD_TIME + resolve_ms L + handler_ms L < t2 + FORWARD_TIME ->
  lookup_event (privateEvents A) "message_forwards" = Some handler ->
  mapM (extendMessage E) [m1] = Ok ext1 ->
  t2 + FORWARD_TIME <= horizon ->
  run E A L [(t1, m1, md1); (t2, m2, md2)] horizon =
    {| now := horizon;
       transactionMessages := ∅;
       arrays := {[ 0%nat := [m1; m2] ]};
       next_id := 3;
       pending := [];
       log := Invoke Private "message_forwards" (PForwards ext1)
              :: match handler (PForwards ext1) with
                 | Some error => [EmitError error]
                 | None => []
                 end |}.
Proof.
  intros Hm1 Hm2 Ht1 Hfired Hbusy Hh Hends Hl Hext Hhor.
  unfold FORWARD_TIME in Hfired, Hbusy, Hends, Hhor.
  unfold run. cbn [foldl]. unfold deliver at 2. cbn [fst snd].
  rewrite (advance_to_idle E A L t1 init); [ | reflexivity | cbn; lia].
  rewrite (on_message_self_forward E A _ key m1 md1 Hm1).
  rewrite on_forward_first_eq; [ | apply lookup_empty].
  state_simpl. cbn [init now transactionMessages arrays next_id pending log app].
  unfold deliver. cbn [fst snd].
  (* the timer of the first forward fires, its lookups are under way *)
  unfold advance_to at 2. cbn [pending work weight Nat.add].
  rewrite (advance_run E A L _ t2 (t1 + FORWARD_TIME) _
             (Timer 1 key (t1 + FORWARD_TIME)) []);
    [ | reflexivity | unfold FORWARD_TIME; lia
      | cbn; rewrite Z.eqb_refl; reflexivity].
  cbn [run_pending].
  rewrite (on_timeout_eq E L _ key {| messages := 0; timeoutId := 1 |});
    [ | apply lookup_insert_eq].
  state_simpl. rewrite filter_nil. cbn [messages timeoutId app].
  rewrite lookup_insert_eq. cbn [default from_option Datatypes.id]. rewrite Hext.
  rewrite (advance_wait E A L _ t2
             (Z.max t1 (t1 + FORWARD_TIME) + resolve_ms L));
    [ | reflexivity | unfold FORWARD_TIME; lia].
  state_simpl.
  (* the second forward is pushed on the array being flushed *)
  rewrite (on_message_self_forward E A _ key m2 md2 Hm2).
  rewrite (on_forward_again_eq _ key m2 {| messages := 0; timeoutId := 1 |} [m1]);
    [ | apply lookup_insert_eq | apply lookup_insert_eq].
  state_simpl. cbn [messages timeoutId].
  rewrite filter_cons_True; [ | reflexivity]. rewrite filter_nil. cbn [app].
  rewrite (Z.max_r t1 (t1 + FORWARD_TIME)); [ | unfold FORWARD_TIME; lia].
  rewrite (Z.max_r (t1 + FORWARD_TIME) t2); [ | unfold FORWARD_TIME; lia].
  (* the lookups settle and the handler is called with the first message *)
  unfold advance_to. cbn [pending work weight Nat.add].
  rewrite (advance_run E A L _ horizon (t1 + FORWARD_TIME + resolve_ms L) _
             (Resolving key (Ok ext1) (t1 + FORWARD_TIME + resolve_ms L))
             [Timer 2 key (t2 + FORWARD_TIME)]);
    [ | cbn; rewrite Z.min_l; [reflexivity | unfold FORWARD_TIME; lia]
      | unfold FORWARD_TIME; lia
      | cbn; rewrite Z.eqb_refl; reflexivity].
  cbn [run_pending]. rewrite (on_resolved_eq A L _ key ext1 handler Hl).
  state_simpl. cbn [app].
  rewrite (Z.max_r t2 (t1 + FORWARD_TIME + resolve_ms L)); [ | unfold FORWARD_TIME; lia].
  (* the handler settles and the entry stored by the second forward is deleted *)
  rewrite (advance_run E A L _ horizon
             (t1 + FORWARD_TIME + resolve_ms L + handler_ms L) _
             (Handling key (handler (PForwards ext1))
                (t1 + FORWARD_TIME + resolve_ms L + handler_ms L))
             [Timer 2 key (t2 + FORWARD_TIME)]);
    [ | cbn; rewrite Z.min_r; [reflexivity | unfold FORWARD_TIME; lia]
      | unfold FORWARD_TIME; lia
      | cbn; rewrite (proj2 (Z.eqb_neq _ _)), Z.eqb_refl;
        [reflexivity | unfold FORWARD_TIME; lia]].
  cbn [run_pending]. rewrite on_handled_eq. state_simpl.
  (* the timer of the second forward finds no entry *)
  rewrite (advance_run E A L _ horizon (t2 + FORWARD_TIME) _
             (Timer 2 key (t2 + FORWARD_TIME)) []);
    [ | reflexivity | unfold FORWARD_TIME; lia
      | cbn; rewrite Z.eqb_refl; reflexivity].
  cbn [run_pending]. unfold on_timeout. state_simpl.
  rewrite lookup_delete_eq.
  rewrite advance_stop; [ | reflexivity]. state_simpl.
  rewrite !delete_insert_eq, delete_empty, insert_insert_eq, insert_empty.
  cbn [app]. f_equal. unfold FORWARD_TIME. lia.
Qed.

(** * Further properties *)

(** ** Update normalizer: failures, priority and identifiers *)

(** X1.  Normalization fails in two ways only: with the unknown-body
    error exactly when none of the four keys is present, and with a
    type error exactly when the key that decides is [callback_query]
    and the query carries no message. *)
Theorem getMessageFromBody_failures (body : Body) :
  (getMessageFromBody body = Throw UnknownTelegramBody <->
   b_message body = None /\ b_edited_message body = None
   /\ b_channel_post body = None /\ b_callback_query body = None)
  /\ (getMessageFromBody body = Throw TypeError <->
      b_message body = None /\ b_edited_message body = None
      /\ b_channel_post body = None
      /\ exists q, b_callback_query body = Some q /\ cq_message q = None)
  /\ (forall e, getMessageFromBody body = Throw e ->
      e = UnknownTelegramBody \/ e = TypeError).
Proof.
  unfold getMessageFromBody.
  destruct (b_message body) as [m | ]; cbn.
  { repeat split; try discriminate; intros; try discriminate;
      repeat match goal with H : _ /\ _ |- _ => destruct H end;
      discriminate. }
  destruct (b_edited_message body) as [m | ]; cbn.
  { repeat split; try discriminate; intros; try discriminate;
      repeat match goal with H : _ /\ _ |- _ => destruct H end;
      discriminate. }
  destruct (b_channel_post body) as [m | ]; cbn.
  { repeat split; try discriminate; intros; try discriminate;
      repeat match goal with H : _ /\ _ |- _ => destruct H end;
      discriminate. }
  destruct (b_callback_query body) as [q | ]; cbn.
  - destruct (cq_message q) as [m | ] eqn:Hq.
    + repeat split; try discriminate; intros; try discriminate.
      * destruct H as (_ & _ & _ & H). discriminate H.
      * destruct H as (_ & _ & _ & q' & [= <-] & H). congruence.
    + repeat split; try discriminate; intros; try discriminate; eauto.
      * destruct H as (_ & _ & _ & H). discriminate H.
      * injection H as <-. right. reflexivity.
  - repeat split; try discriminate; intros; try discriminate.
    + destruct H as (_ & _ & _ & q & H & _). discriminate H.
    + injection H as <-. left. reflexivity.
Qed.

(** X2.  When several of the four keys are present the first one, in the
    order [message], [edited_message], [channel_post], [callback_query],
    decides the kind and the message; the keys after it are not read. *)
Theorem getMessageFromBody_priority (body : Body) (n : Normalized) :
  getMessageFromBody body = Ok n ->
  (n_type n = "message" /\ b_message body = Some (n_message n))
  \/ (n_type n = "edited_message" /\ b_message body = None
      /\ b_edited_message body = Some (n_message n))
  \/ (n_type n = "channel_post" /\ b_message body = None
      /\ b_edited_message body = None
      /\ b_channel_post body = Some (n_message n))
  \/ (n_type n = "callback_query" /\ b_message body = None
      /\ b_edited_message body = None /\ b_channel_post body = None
      /\ cq_message <$> b_callback_query body = Some (Some (n_message n))).
Proof.
  unfold getMessageFromBody.
  destruct (b_message body) as [m | ]; cbn.
  { intros [= <-]. left. split; reflexivity. }
  destruct (b_edited_message body) as [m | ]; cbn.
  { intros [= <-]. right. left. repeat split. }
  destruct (b_channel_post body) as [m | ]; cbn.
  { intros [= <-]. right. right. left. repeat split. }
  destruct (b_callback_query body) as [q | ]; cbn; [ | discriminate].
  destruct (cq_message q) as [m | ]; [ | discriminate].
  intros [= <-]. right. right. right. repeat split.
Qed.

Lemma getMessageFromBody_priority_witness :
  n_type {| n_type := "message"; n_message := edited_reply_hi;
            chatId := "5"; userId := "5" |} = "message"
  /\ b_message {| b_message := Some edited_reply_hi;
                  b_edited_message := Some channel_post_message;
                  b_channel_post := None;
                  b_callback_query := Some buy_query;
                  b_inline_query := None |} = Some edited_reply_hi.
Proof.
  destruct (getMessageFromBody_priority
              {| b_message := Some edited_reply_hi;
                 b_edited_message := Some channel_post_message;
                 b_channel_post := None;
                 b_callback_query := Some buy_query;
                 b_inline_query := None |}
              {| n_type := "message"; n_message := edited_reply_hi;
                 chatId := "5"; userId := "5" |} eq_refl)
    as [H | [(H & _) | [(H & _) | (H & _)]]];
    [exact H | discriminate H | discriminate H | discriminate H].
Defined.




(** ** The webhook entry point *)

(** X4.  A body with none of the four keys, such as one that carries an
    inline query only, is answered with status 400 and never handed to
    the bot; so is a callback query without a message. *)
Theorem api_refuses (processUpdate : Body -> option (option Z)) (body : Body) :
  b_message body = None -> b_edited_message body = None ->
  b_channel_post body = None ->
  (forall q, b_callback_query body = Some q -> cq_message q = None) ->
  api processUpdate body = (400, None).
Proof.
  intros H1 H2 H3 H4. unfold api, getMessageFromBody.
  rewrite H1, H2, H3.
  destruct (b_callback_query body) as [q | ]; [ | reflexivity].
  cbn. rewrite (H4 q eq_refl). reflexivity.
Qed.

Lemma api_refuses_witness :
  api (fun _ => None) inline_only = (400, None).
Proof.
  apply (api_refuses (fun _ => None) inline_only); try reflexivity.
  intros q H. discriminate H.
Defined.

(** X5.  Whatever the variant of the body, the update handed to the bot
    carries a [message] key: the message of the variant with its [type]
    set to the kind tag.  The other keys of the body are passed on
    unchanged, and the answer is 200 when the bot returns. *)
Theorem api_update_carries_message (processUpdate : Body -> option (option Z))
    (body : Body) (n : Normalized) :
  getMessageFromBody body = Ok n ->
  exists update,
    (api processUpdate body).2 = Some update
    /\ b_message update = Some (set_type (n_message n) (n_type n))
    /\ b_edited_message update = b_edited_message body
    /\ b_channel_post update = b_channel_post body
    /\ b_callback_query update = b_callback_query body
    /\ b_inline_query update = b_inline_query body
    /\ (processUpdate update = None -> (api processUpdate body).1 = 200).
Proof.
  intros H. unfold api. rewrite H.
  exists (api_update body (n_message n) (n_type n)).
  destruct (processUpdate _) eqn:Hp; repeat split; try reflexivity.
  intros Hnone. discriminate Hnone.
Qed.

Lemma api_update_carries_message_witness :
  exists update,
    (api (fun _ => None) callback_only).2 = Some update
    /\ b_message update = Some (set_type channel_post_message "callback_query")
    /\ b_callback_query update = Some buy_query
    /\ (api (fun _ => None) callback_only).1 = 200.
Proof.
  destruct (api_update_carries_message (fun _ => None) callback_only
              {| n_type := "callback_query"; n_message := channel_post_message;
                 chatId := "-1001"; userId := "undefined" |} eq_refl)
    as (u & H1 & H2 & _ & _ & H5 & _ & H7).
  exists u.
  split; [exact H1 | split; [exact H2 | split; [exact H5 | exact (H7 eq_refl)]]].
Defined.

(** ** Event classifier: pattern keys *)

Lemma lastIndexOf_from_shift (i j : nat) (c : ascii) (s : string) :
  lastIndexOf_from i c s = None -> lastIndexOf_from j c s = None.
Proof.
  revert i j. induction s as [| a s IH]; intros i j; cbn; [reflexivity | ].
  destruct (lastIndexOf_from (S i) c s) eqn:Hi; [discriminate | ].
  rewrite (IH _ (S j) Hi). destruct (Ascii.eqb a c); [discriminate | reflexivity].
Qed.

Lemma append_nil (s : string) : "" +:+ s = s.
Proof. reflexivity. Qed.

Lemma append_cons (a : ascii) (s1 s2 : string) :
  String a s1 +:+ s2 = String a (s1 +:+ s2).
Proof. reflexivity. Qed.

Lemma lastIndexOf_from_last (i : nat) (c : ascii) (s1 s2 : string) :
  lastIndexOf s2 c = None ->
  lastIndexOf_from i c (s1 +:+ String c s2) = Some (i + String.length s1)%nat.
Proof.
  intros Hnone. revert i. induction s1 as [| a s1 IH]; intros i.
  - rewrite append_nil. cbn.
    rewrite (lastIndexOf_from_shift 0 (S i) c s2 Hnone).
    rewrite Ascii.eqb_refl. f_equal. lia.
  - rewrite append_cons. cbn. rewrite IH. f_equal. lia.
Qed.

Lemma substring_all (s : string) : String.substring 0 (String.length s) s = s.
Proof. induction s as [| a s IH]; cbn; [reflexivity | rewrite IH; reflexivity]. Qed.

Lemma substring_prefix (s1 s2 : string) :
  String.substring 0 (String.length s1) (s1 +:+ s2) = s1.
Proof.
  induction s1 as [| a s1 IH].
  - rewrite append_nil. cbn. destruct s2; reflexivity.
  - rewrite append_cons. cbn. rewrite IH. reflexivity.
Qed.

Lemma substring_skip (s1 s2 : string) (n m : nat) :
  String.substring (String.length s1 + n) m (s1 +:+ s2) = String.substring n m s2.
Proof.
  induction s1 as [| a s1 IH]; [reflexivity | ].
  rewrite append_cons. cbn. exact IH.
Qed.

Lemma length_append (s1 s2 : string) :
  String.length (s1 +:+ s2) = (String.length s1 + String.length s2)%nat.
Proof.
  induction s1 as [| a s1 IH]; [reflexivity | ].
  rewrite append_cons. cbn. rewrite IH. reflexivity.
Qed.

(** X6.  A key written as a slash, a pattern source, a slash and flags is
    read back as that source and those flags, whatever slashes the
    source itself contains, as long as the flags contain none: the key
    is cut at its last slash. *)
Theorem restoredRegex_roundtrip (E : Env) (src flags txt : string) :
  lastIndexOf flags "/"%char = None ->
  startsWith ("/" +:+ src +:+ "/" +:+ flags) "/" = true
  /\ restoredRegex_exec E ("/" +:+ src +:+ "/" +:+ flags) txt
     = RegExp_exec E src flags txt.
Proof.
  intros Hflags. split; [destruct src; reflexivity | ].
  unfold restoredRegex_exec, lastIndexOf.
  change ("/" +:+ src +:+ "/" +:+ flags)
    with (String "/" (src +:+ String "/" flags)).
  cbn [lastIndexOf_from].
  rewrite (lastIndexOf_from_last 1 "/" src flags Hflags). cbn [default from_option Datatypes.id].
  f_equal.
  - unfold slice.
    replace (1 + String.length src - 1)%nat with (String.length src) by lia.
    cbn [String.substring]. apply substring_prefix.
  - unfold slice_from. cbn [String.length]. rewrite length_append. cbn [String.length].
    replace (S (String.length src + S (String.length flags))
             - (1 + String.length src + 1))%nat
      with (String.length flags) by lia.
    replace (1 + String.length src + 1)%nat
      with (S (String.length src + 1)) by lia.
    cbn [String.substring].
    rewrite (substring_skip src (String "/" flags) 1 (String.length flags)).
    cbn [String.substring]. apply substring_all.
Qed.

Lemma restoredRegex_roundtrip_witness :
  restoredRegex_exec sample_env "/a/b/gi" "x"
  = RegExp_exec sample_env "a/b" "gi" "x".
Proof.
  apply (restoredRegex_roundtrip sample_env "a/b" "gi" "x"). reflexivity.
Defined.

(** X7.  A key that starts with a slash and contains no other one, such
    as a command name, is read as the empty pattern with the rest of
    the key as its flags. *)
Theorem restoredRegex_command_key (E : Env) (name txt : string) :
  lastIndexOf name "/"%char = None ->
  restoredRegex_exec E ("/" +:+ name) txt = RegExp_exec E "" name txt.
Proof.
  intros Hname. unfold restoredRegex_exec, lastIndexOf.
  change ("/" +:+ name) with (String "/" name). cbn [lastIndexOf_from].
  rewrite (lastIndexOf_from_shift 0 1 "/" name Hname).
  cbn [Ascii.eqb Bool.eqb default from_option Datatypes.id].
  f_equal; [destruct name; reflexivity | ].
  unfold slice_from. cbn [String.length Nat.add Nat.sub String.substring].
  rewrite Nat.sub_0_r. apply substring_all.
Qed.

Lemma restoredRegex_command_key_witness :
  restoredRegex_exec sample_env "/start" "hi" = None.
Proof.
  exact (eq_trans (restoredRegex_command_key sample_env "start" "hi" eq_refl)
           eq_refl).
Defined.

Lemma scan_patterns_Some (E : Env) (txt key : string) (eventsList : list string) :
  scan_patterns E txt eventsList = Ok (Some key) ->
  In key eventsList /\ startsWith key "/" = true
  /\ restoredRegex_exec E key txt = Some true.
Proof.
  induction eventsList as [| k rest IH]; cbn; [discriminate | ].
  destruct (startsWith k "/") eqn:Hs.
  - destruct (restoredRegex_exec E k txt) as [[ | ] | ] eqn:Hx.
    + intros [= <-]. auto.
    + intros H. destruct (IH H) as (Hin & Hk & Hm). auto.
    + discriminate.
  - intros H. destruct (IH H) as (Hin & Hk & Hm). auto.
Qed.

Lemma scan_patterns_filter (E : Env) (txt : string) (eventsList : list string) :
  scan_patterns E txt (filter (fun k => startsWith k "/" = true) eventsList)
  = scan_patterns E txt eventsList.
Proof.
  induction eventsList as [| k rest IH]; [reflexivity | ].
  rewrite filter_cons. destruct (decide (startsWith k "/" = true)) as [Hs | Hs].
  - cbn. rewrite Hs, IH. reflexivity.
  - cbn. apply not_true_is_false in Hs. rewrite Hs. exact IH.
Qed.

(** X8.  Registered keys that do not start with a slash play no part in
    classification: the event name is the one obtained from the
    pattern-shaped keys alone. *)
Theorem getEventName_plain_keys_ignored (E : Env) (message : Message)
    (metadata : Metadata) (eventsList : list string) :
  getEventName E message metadata
    (filter (fun k => startsWith k "/" = true) eventsList)
  = getEventName E message metadata eventsList.
Proof. unfold getEventName. rewrite scan_patterns_filter. reflexivity. Qed.

(** X9.  The event name is a registered pattern key that matches the text
    of a text message, or one of the six names that the classifier
    builds, or the kind tag of the update; a registered key that does
    not match is never returned in place of these. *)
Theorem getEventName_range (E : Env) (message : Message) (metadata : Metadata)
    (eventsList : list string) (name : string) :
  getEventName E message metadata eventsList = Ok name ->
  (md_type metadata = "text" /\ In name eventsList
   /\ startsWith name "/" = true
   /\ restoredRegex_exec E name (default "undefined" (text message)) = Some true)
  \/ In name structural_names
  \/ name = md_type metadata.
Proof.
  unfold getEventName, structural_names.
  destruct (String.eqb_spec (md_type metadata) "contact") as [Hc | Hc].
  { destruct (from message) as [sender | ]; [ | discriminate].
    destruct (is_bot sender).
    - intros [= <-]. right. left. cbn. tauto.
    - destruct (contact message) as [c | ]; [ | discriminate].
      destruct (bool_decide _); intros [= <-]; right; left; cbn; tauto. }
  destruct (String.eqb_spec (md_type metadata) "text") as [Ht | Ht];
    [ | intros [= <-]; right; right; reflexivity].
  destruct (scan_patterns E _ eventsList) as [[key | ] | e] eqn:Hscan; cbn;
    [ | | discriminate].
  - intros [= <-]. left. split; [exact Ht | ].
    exact (scan_patterns_Some E _ _ _ Hscan).
  - destruct (bool_decide (m_type message = Some "edited_message"));
      [intros [= <-]; right; left; cbn; tauto | ].
    destruct (bool_decide (is_Some (reply_to_message message)));
      [intros [= <-]; right; left; cbn; tauto | ].
    destruct (entities message) as [es | ];
      [ | intros [= <-]; right; right; reflexivity].
    destruct (has_entity "mention" es);
      [intros [= <-]; right; left; cbn; tauto | ].
    destruct (has_entity "bot_command" es);
      [intros [= <-]; right; left; cbn; tauto | ].
    intros [= <-]. right. right. reflexivity.
Qed.

Lemma getEventName_range_witness :
  In "edited_message_text" structural_names.
Proof.
  destruct (getEventName_range sample_env edited_reply_hi {| md_type := "text" |}
              ["text"; "/^bye$/"] "edited_message_text" eq_refl)
    as [(_ & H & _) | [H | H]].
  - cbn in H. destruct H as [H | [H | []]]; discriminate H.
  - exact H.
  - discriminate H.
Defined.

(** X10.  A pattern-shaped key that does not spell a regular expression
    makes the classification of a text message throw as soon as the
    scan reaches it, that is, unless a key registered before it matches:
    no name is returned, not even a structural one. *)
Theorem getEventName_malformed_key (E : Env) (message : Message)
    (metadata : Metadata) (txt key : string) (before after : list string) :
  md_type metadata = "text" ->
  text message = Some txt ->
  Forall (passed_over E txt) before ->
  startsWith key "/" = true ->
  restoredRegex_exec E key txt = None ->
  getEventName E message metadata (before ++ key :: after) = Throw SyntaxError.
Proof.
  intros Hty Htxt Hbefore Hshape Hbad.
  unfold getEventName. rewrite Hty, Htxt. cbn.
  assert (scan_patterns E txt (before ++ key :: after) = Throw SyntaxError) as ->;
    [ | reflexivity].
  induction Hbefore as [| k before Hk _ IH]; cbn.
  - rewrite Hshape, Hbad. reflexivity.
  - destruct (startsWith k "/") eqn:Hs; [ | exact IH].
    rewrite (Hk Hs). exact IH.
Qed.

Lemma getEventName_malformed_key_witness :
  getEventName sample_env edited_reply_hi {| md_type := "text" |}
    (["text"; "/^bye$/"] ++ "/start" :: ["/^hi$/"]) = Throw SyntaxError.
Proof.
  apply (getEventName_malformed_key sample_env edited_reply_hi
           {| md_type := "text" |} "hi" "/start" ["text"; "/^bye$/"] ["/^hi$/"]);
    try reflexivity.
  repeat constructor; intros H; try discriminate H; reflexivity.
Defined.

Lemma extendMessage_same_frame (E : Env) (m m' : Message) :
  extendMessage E m = Ok m' -> same_frame m m'.
Proof.
  intros H. unfold extendMessage in H.
  bind_inv H. bind_inv H. bind_inv H. bind_inv H. bind_inv H. bind_inv H.
  injection H as <-. repeat split.
Qed.

(** X11.  Enrichment never changes the event name: classifying the
    enriched message gives what classifying the original one gives. *)
Theorem getEventName_after_enrichment (E : Env) (message message' : Message)
    (metadata : Metadata) (eventsList : list string) :
  extendMessage E message = Ok message' ->
  getEventName E message' metadata eventsList
  = getEventName E message metadata eventsList.
Proof.
  intros H. apply extendMessage_same_frame in H.
  destruct H as (Hty & _ & Hfrom & _ & _ & Htxt & Hreply & Hent & Hcontact & _).
  unfold getEventName. rewrite Hty, Hfrom, Htxt, Hreply, Hent, Hcontact.
  reflexivity.
Qed.

Lemma getEventName_after_enrichment_witness :
  getEventName sample_env enriched_photo_message {| md_type := "photo" |} []
  = getEventName sample_env photo_message {| md_type := "photo" |} [].
Proof.
  apply (getEventName_after_enrichment sample_env photo_message). reflexivity.
Defined.

(** X12.  An edited text message that arrives through the webhook is the
    case in which the classifier answers [edited_message_text]: [api]
    tags the message it hands over with the kind, and when no
    registered pattern matches the text that tag decides. *)
Theorem webhook_edit_classified (E : Env)
    (processUpdate : Body -> option (option Z)) (body : Body)
    (m : Message) (txt : string) (eventsList : list string) :
  b_message body = None -> b_edited_message body = Some m ->
  text m = Some txt ->
  Forall (passed_over E txt) eventsList ->
  exists update m',
    (api processUpdate body).2 = Some update
    /\ b_message update = Some m'
    /\ getEventName E m' {| md_type := "text" |} eventsList
       = Ok "edited_message_text".
Proof.
  intros Hm He Htxt Hpass.
  assert (getMessageFromBody body =
            Ok {| n_type := "edited_message"; n_message := m;
                  chatId := String_of_id (c_id <$> chat m);
                  userId := String_of_id (u_id <$> from m) |}) as Hn.
  { unfold getMessageFromBody. rewrite Hm, He. reflexivity. }
  exists (api_update body m "edited_message"), (set_type m "edited_message").
  split; [ | split; [reflexivity | ]].
  - unfold api. rewrite Hn. cbn. destruct (processUpdate _); reflexivity.
  - unfold getEventName. cbn. rewrite Htxt. cbn.
    assert (scan_patterns E txt eventsList = Ok None) as ->; [ | reflexivity].
    induction Hpass as [| k rest Hk _ IH]; cbn; [reflexivity | ].
    destruct (startsWith k "/") eqn:Hs; [ | exact IH].
    rewrite (Hk Hs). exact IH.
Qed.

Lemma webhook_edit_classified_witness :
  exists update m',
    (api (fun _ => None)
       {| b_message := None; b_edited_message := Some edited_reply_hi;
          b_channel_post := None; b_callback_query := None;
          b_inline_query := None |}).2 = Some update
    /\ b_message update = Some m'
    /\ getEventName sample_env m' {| md_type := "text" |} ["text"; "/^bye$/"]
       = Ok "edited_message_text".
Proof.
  apply (webhook_edit_classified sample_env (fun _ => None) _ edited_reply_hi "hi");
    try reflexivity.
  repeat constructor; intros H; try discriminate H; reflexivity.
Defined.

(** ** Attachment resolver: when it fails, how, and what it leaves *)

Lemma bind_Throw {A B : Type} (r : result A) (k : A -> result B) (e : Error) :
  r ≫= k = Throw e -> r = Throw e \/ exists a, r = Ok a /\ k a = Throw e.
Proof. destruct r as [a | e']; cbn; [eauto | intros [= <-]; auto]. Qed.

Lemma bind_Ok_iff {A B : Type} (r : result A) (k : A -> result B) :
  (exists b, r ≫= k = Ok b) <-> exists a, r = Ok a /\ exists b, k a = Ok b.
Proof.
  split.
  - intros [b H]. bind_inv H. eauto.
  - intros (a & -> & b & H). exists b. exact H.
Qed.

Lemma getTelegramFile_ok (E : Env) (fileId : option string) :
  (exists f, getTelegramFile E fileId = Ok f) <-> lookup_ok E fileId = true.
Proof.
  unfold getTelegramFile, lookup_ok.
  destruct (getFile E fileId) as [path | ]; split.
  - intros _. apply bool_decide_eq_true_2. eauto.
  - eauto.
  - intros [f H]. discriminate H.
  - intros H. apply bool_decide_eq_true_1 in H. destruct H as [x H]. discriminate H.
Qed.

Lemma getTelegramFile_Throw (E : Env) (fileId : option string) (e : Error) :
  getTelegramFile E fileId = Throw e -> e = FileLookupError.
Proof.
  unfold getTelegramFile. destruct (getFile E fileId); [discriminate | ].
  intros [= <-]. reflexivity.
Qed.

Lemma getTelegramFile_resolved (E : Env) (fileId : option string) (f : File) :
  getTelegramFile E fileId = Ok f -> resolved_as E fileId (Some f).
Proof.
  unfold getTelegramFile, resolved_as.
  destruct (getFile E fileId) as [path | ]; [ | discriminate].
  intros [= <-]. exists path. split; reflexivity.
Qed.



Lemma extend_plain_ok (E : Env) (b : option Attachment) :
  (exists b', extend_plain E b = Ok b') <-> plain_ok E b = true.
Proof.
  unfold extend_plain, plain_ok. destruct b as [a | ]; [ | split; eauto].
  destruct (truthy (a_file_id a)); [ | split; eauto].
  rewrite bind_Ok_iff, <- getTelegramFile_ok. split.
  - intros (f & Hf & _). eauto.
  - intros [f Hf]. eauto.
Qed.








(** A video note without a file identifier, the lookup refusing
    [undefined]: enrichment fails although nothing could be resolved. *)
Lemma extendMessage_video_note_without_id :
  resolves sample_env
    {| m_type := None; chat := None; from := None; forward_from := None;
       forward_from_chat := None; text := None; reply_to_message := None;
       entities := None; contact := None; voice := None; document := None;
       video := None; audio := None; photo := None;
       video_note := Some {| a_file_id := None; a_file_size := None;
                             a_thumb := None; a_thumbnail := None;
                             a_file := None; a_rest := [] |};
       m_rest := [] |} = false.
Proof. reflexivity. Qed.

Lemma extend_thumb_Throw (E : Env) (a : Attachment) (e : Error) :
  extend_thumb E a = Throw e ->
  e = FileLookupError
  \/ (e = TypeError /\ a_thumb a = None /\ a_thumbnail a <> None).
Proof.
  unfold extend_thumb. destruct (a_thumb a) as [t | ].
  - intros H. apply bind_Throw in H. destruct H as [H | (f & _ & H)].
    + left. exact (getTelegramFile_Throw E _ _ H).
    + discriminate H.
  - destruct (a_thumbnail a) as [t | ]; [ | discriminate].
    intros H. apply bind_Throw in H. destruct H as [H | (f & _ & H)].
    + left. exact (getTelegramFile_Throw E _ _ H).
    + injection H as <-. right. repeat split. discriminate.
Qed.

Lemma resolve_both_Throw (E : Env) (a : Attachment) (e : Error) :
  (f ← getTelegramFile E (a_file_id a);
   a' ← extend_thumb E (set_file a f);
   Ok (Some a')) = Throw e ->
  e = FileLookupError \/ (e = TypeError /\ thumbnail_only (Some a)).
Proof.
  intros H. apply bind_Throw in H. destruct H as [H | (f & _ & H)].
  - left. exact (getTelegramFile_Throw E _ _ H).
  - apply bind_Throw in H. destruct H as [H | (a' & _ & H)]; [ | discriminate H].
    apply extend_thumb_Throw in H. destruct H as [H | (H & Ht & Hn)]; [auto | ].
    right. split; [exact H | ]. exists a. auto.
Qed.

Lemma extend_plain_Throw (E : Env) (b : option Attachment) (e : Error) :
  extend_plain E b = Throw e -> e = FileLookupError.
Proof.
  unfold extend_plain. destruct b as [a | ]; [ | discriminate].
  destruct (truthy (a_file_id a)); [ | discriminate].
  intros H. apply bind_Throw in H. destruct H as [H | (f & _ & H)].
  - exact (getTelegramFile_Throw E _ _ H).
  - discriminate H.
Qed.

Lemma extend_with_thumb_Throw (E : Env) (b : option Attachment) (e : Error) :
  extend_with_thumb E b = Throw e ->
  e = FileLookupError \/ (e = TypeError /\ thumbnail_only b).
Proof.
  unfold extend_with_thumb. destruct b as [a | ]; [ | discriminate].
  destruct (truthy (a_file_id a)); [ | discriminate].
  apply resolve_both_Throw.
Qed.

Lemma extend_video_note_Throw (E : Env) (b : option Attachment) (e : Error) :
  extend_video_note E b = Throw e ->
  e = FileLookupError \/ (e = TypeError /\ thumbnail_only b).
Proof.
  unfold extend_video_note. destruct b as [a | ]; [ | discriminate].
  apply resolve_both_Throw.
Qed.

Lemma mapM_extend_photo_Throw (E : Env) (l : list Attachment) (e : Error) :
  mapM (extend_photo E) l = Throw e -> e = FileLookupError.
Proof.
  induction l as [| p l IH]; cbn; [discriminate | ].
  intros H. apply bind_Throw in H. destruct H as [H | (p' & _ & H)].
  - unfold extend_photo in H. destruct (_ && _); [ | discriminate].
    apply bind_Throw in H. destruct H as [H | (f & _ & H)];
      [exact (getTelegramFile_Throw E _ _ H) | discriminate H].
  - apply bind_Throw in H. destruct H as [H | (l' & _ & H)];
      [exact (IH H) | discriminate H].
Qed.

(** X14.  Enrichment fails in two ways only: with the failure of a file
    lookup, or with a type error, and then the [document], [video] or
    [video_note] block of the message has a preview under [thumbnail]
    and none under [thumb]. *)
Theorem extendMessage_failures (E : Env) (m : Message) (e : Error) :
  extendMessage E m = Throw e ->
  e = FileLookupError
  \/ (e = TypeError
      /\ (thumbnail_only (document m) \/ thumbnail_only (video m)
          \/ thumbnail_only (video_note m))).
Proof.
  unfold extendMessage. intros H.
  apply bind_Throw in H. destruct H as [H | (v & _ & H)];
    [left; exact (extend_plain_Throw E _ _ H) | ].
  apply bind_Throw in H. destruct H as [H | (d & _ & H)].
  { apply extend_with_thumb_Throw in H. destruct H as [H | [H Ht]]; auto. }
  apply bind_Throw in H. destruct H as [H | (vi & _ & H)].
  { apply extend_with_thumb_Throw in H. destruct H as [H | [H Ht]]; auto. }
  apply bind_Throw in H. destruct H as [H | (a & _ & H)];
    [left; exact (extend_plain_Throw E _ _ H) | ].
  apply bind_Throw in H. destruct H as [H | (p & _ & H)].
  { destruct (photo m) as [l | ]; [ | discriminate H].
    apply bind_Throw in H. destruct H as [H | (l' & _ & H)];
      [left; exact (mapM_extend_photo_Throw E _ _ H) | discriminate H]. }
  apply bind_Throw in H. destruct H as [H | (n & _ & H)]; [ | discriminate H].
  apply extend_video_note_Throw in H. destruct H as [H | [H Ht]]; auto.
Qed.

Lemma extendMessage_failures_witness :
  FileLookupError = FileLookupError
  \/ (FileLookupError = TypeError
      /\ (thumbnail_only None \/ thumbnail_only None
          \/ thumbnail_only
               (Some {| a_file_id := None; a_file_size := None;
                        a_thumb := None; a_thumbnail := None;
                        a_file := None; a_rest := [] |}))).
Proof.
  apply (extendMessage_failures sample_env
           {| m_type := None; chat := None; from := None; forward_from := None;
              forward_from_chat := None; text := None; reply_to_message := None;
              entities := None; contact := None; voice := None; document := None;
              video := None; audio := None; photo := None;
              video_note := Some {| a_file_id := None; a_file_size := None;
                                    a_thumb := None; a_thumbnail := None;
                                    a_file := None; a_rest := [] |};
              m_rest := [] |} FileLookupError).
  reflexivity.
Defined.

(** X15.  A document that carries its preview under [thumbnail] and not
    under [thumb] makes enrichment throw a type error once its own
    lookups have succeeded: the preview is looked up through either
    key, and the result is stored through [thumb] alone. *)
Theorem extendMessage_thumbnail_only_document (E : Env) (m : Message)
    (a : Attachment) (t : Thumb) :
  plain_ok E (voice m) = true ->
  document m = Some a ->
  truthy (a_file_id a) = true ->
  a_thumb a = None -> a_thumbnail a = Some t ->
  lookup_ok E (a_file_id a) = true ->
  lookup_ok E (th_file_id t) = true ->
  extendMessage E m = Throw TypeError.
Proof.
  intros Hv Hd Hid Hthumb Hnail Hf Ht.
  apply extend_plain_ok in Hv. destruct Hv as [v Hv].
  apply getTelegramFile_ok in Hf. destruct Hf as [f Hf].
  apply getTelegramFile_ok in Ht. destruct Ht as [ft Ht].
  unfold extendMessage. rewrite Hv, Hd. cbn.
  rewrite Hid, Hf. cbn.
  unfold extend_thumb. cbn. rewrite Hthumb, Hnail, Ht. reflexivity.
Qed.

Lemma extendMessage_thumbnail_only_document_witness :
  extendMessage sample_env
    {| m_type := None; chat := None; from := None; forward_from := None;
       forward_from_chat := None; text := None; reply_to_message := None;
       entities := None; contact := None; voice := None;
       document := Some {| a_file_id := Some "doc"; a_file_size := Some 7;
                           a_thumb := None;
                           a_thumbnail := Some {| th_file_id := Some "pre";
                                                  th_file := None |};
                           a_file := None; a_rest := [] |};
       video := None; audio := None; photo := None; video_note := None;
       m_rest := [] |} = Throw TypeError.
Proof.
  apply (extendMessage_thumbnail_only_document sample_env _
           {| a_file_id := Some "doc"; a_file_size := Some 7; a_thumb := None;
              a_thumbnail := Some {| th_file_id := Some "pre"; th_file := None |};
              a_file := None; a_rest := [] |}
           {| th_file_id := Some "pre"; th_file := None |});
    reflexivity.
Defined.

Lemma extend_thumb_resolved (E : Env) (a a' : Attachment) (t : Thumb) :
  extend_thumb E a = Ok a' -> a_thumb a = Some t ->
  exists t', a_thumb a' = Some t'
             /\ resolved_as E (th_file_id t) (th_file t').
Proof.
  unfold extend_thumb. intros H Ht. rewrite Ht in H.
  bind_inv H. injection H as <-. cbn.
  eexists. split; [reflexivity | ]. cbn.
  exact (getTelegramFile_resolved E _ _ Hx).
Qed.

Lemma resolve_both_resolved (E : Env) (a a' : Attachment) (f : File) :
  getTelegramFile E (a_file_id a) = Ok f ->
  extend_thumb E (set_file a f) = Ok a' ->
  resolved_as E (a_file_id a) (a_file a')
  /\ forall t, a_thumb a = Some t ->
       exists t', a_thumb a' = Some t'
                  /\ resolved_as E (th_file_id t) (th_file t').
Proof.
  intros Hf Ht. split.
  - destruct (extend_thumb_keeps E _ _ Ht) as (_ & Hfile & _).
    rewrite Hfile. cbn. exact (getTelegramFile_resolved E _ _ Hf).
  - intros t Hthumb. exact (extend_thumb_resolved E _ _ t Ht Hthumb).
Qed.

Lemma extend_plain_resolved (E : Env) (b b' : option Attachment) :
  extend_plain E b = Ok b' -> has_id b -> file_resolved E b b'.
Proof.
  unfold extend_plain, has_id, file_resolved. intros H Hid a ->.
  rewrite (Hid a eq_refl) in H. bind_inv H. injection H as <-.
  eexists. split; [reflexivity | ]. cbn.
  exact (getTelegramFile_resolved E _ _ Hx).
Qed.

Lemma extend_with_thumb_resolved (E : Env) (b b' : option Attachment) :
  extend_with_thumb E b = Ok b' -> has_id b ->
  file_resolved E b b' /\ thumb_resolved E b b'.
Proof.
  unfold extend_with_thumb, has_id, file_resolved, thumb_resolved.
  intros H Hid. destruct b as [a | ]; [ | split; intros; discriminate].
  rewrite (Hid a eq_refl) in H. bind_inv H. bind_inv H. injection H as <-.
  destruct (resolve_both_resolved E a x0 x Hx Hx0) as [Hfile Hthumb].
  split.
  - intros a0 [= <-]. eauto.
  - intros a0 t [= <-] Ht. destruct (Hthumb t Ht) as (t' & H1 & H2). eauto.
Qed.

Lemma extend_video_note_resolved (E : Env) (b b' : option Attachment) :
  extend_video_note E b = Ok b' ->
  file_resolved E b b' /\ thumb_resolved E b b'.
Proof.
  unfold extend_video_note, file_resolved, thumb_resolved.
  intros H. destruct b as [a | ]; [ | split; intros; discriminate].
  bind_inv H. bind_inv H. injection H as <-.
  destruct (resolve_both_resolved E a x0 x Hx Hx0) as [Hfile Hthumb].
  split.
  - intros a0 [= <-]. eauto.
  - intros a0 t [= <-] Ht. destruct (Hthumb t Ht) as (t' & H1 & H2). eauto.
Qed.

Lemma extend_photo_resolved (E : Env) (p p' : Attachment) :
  extend_photo E p = Ok p' -> resolvable p ->
  resolved_as E (a_file_id p) (a_file p').
Proof.
  unfold extend_photo, resolvable. intros H [Hsize Hid].
  rewrite (bool_decide_eq_true_2 _ Hsize), Hid in H. cbn in H.
  bind_inv H. injection H as <-. cbn.
  exact (getTelegramFile_resolved E _ _ Hx).
Qed.

(** X16.  When enrichment returns, each of the [voice], [document],
    [video] and [audio] blocks that has a file identifier carries under
    [file] the path that the lookup gave for that identifier and the
    url built from it; so do the [thumb] previews of the [document] and
    [video] blocks, the [video_note] block and its preview, and every
    photo variant with an identifier and a positive size, in place. *)
Theorem extendMessage_resolved (E : Env) (m m' : Message) :
  extendMessage E m = Ok m' ->
  (has_id (voice m) -> file_resolved E (voice m) (voice m'))
  /\ (has_id (document m) ->
      file_resolved E (document m) (document m')
      /\ thumb_resolved E (document m) (document m'))
  /\ (has_id (video m) ->
      file_resolved E (video m) (video m')
      /\ thumb_resolved E (video m) (video m'))
  /\ (has_id (audio m) -> file_resolved E (audio m) (audio m'))
  /\ photos_resolved E (photo m) (photo m')
  /\ file_resolved E (video_note m) (video_note m')
  /\ thumb_resolved E (video_note m) (video_note m').
Proof.
  intros H. unfold extendMessage in H.
  bind_inv H. bind_inv H. bind_inv H. bind_inv H. bind_inv H. bind_inv H.
  injection H as <-. cbn.
  split; [exact (extend_plain_resolved E _ _ Hx) | ].
  split; [exact (extend_with_thumb_resolved E _ _ Hx0) | ].
  split; [exact (extend_with_thumb_resolved E _ _ Hx1) | ].
  split; [exact (extend_plain_resolved E _ _ Hx2) | ].
  split.
  - unfold photos_resolved. intros l Hl. rewrite Hl in Hx3.
    apply bind_Ok in Hx3. destruct Hx3 as (l' & Hl' & Hx3).
    injection Hx3 as <-. exists l'. split; [reflexivity | ].
    exact (mapM_Forall2 _ _ _ _ (extend_photo_resolved E) Hl').
  - exact (extend_video_note_resolved E _ _ Hx4).
Qed.

Lemma extendMessage_resolved_witness :
  photos_resolved sample_env (photo photo_message) (photo enriched_photo_message).
Proof.
  destruct (extendMessage_resolved sample_env photo_message
              enriched_photo_message eq_refl) as (_ & _ & _ & _ & H & _).
  exact H.
Defined.

(** ** Dispatcher: what the listeners call *)

Lemma invoke_guarded_cases (scope : Scope) (events : Registry)
    (unknown eventName : string) (message : Message) :
  (lookup_event events eventName = None
   /\ invoke_guarded scope events unknown eventName message
      = [Warn (unknown +:+ eventName)])
  \/ (exists handler,
        lookup_event events eventName = Some handler
        /\ invoke_guarded scope events unknown eventName message
           = Invoke scope eventName (PMessage message)
             :: match handler (PMessage message) with
                | Some error => [EmitError error]
                | None => []
                end).
Proof.
  unfold invoke_guarded. destruct (lookup_event events eventName) as [h | ].
  - right. exists h. split; [reflexivity | ]. destruct (h _); reflexivity.
  - left. split; reflexivity.
Qed.

(** The ordinary path, case by case. *)
Lemma dispatch_cases (E : Env) (A : Args) (message : Message)
    (metadata : Metadata) :
  (exists e, dispatch E A message metadata = ([], Rejected e)
             /\ (extendMessage E message = Throw e
                 \/ exists message', extendMessage E message = Ok message'
                      /\ ((chat message' = None /\ e = TypeError)
                          \/ exists c, chat message' = Some c
                               /\ getEventName E message' metadata
                                    (ownKeys (registry_of A (scope_of c)))
                                  = Throw e)))
  \/ (exists message' c eventName unknown,
        extendMessage E message = Ok message' /\ chat message' = Some c
        /\ getEventName E message' metadata
             (ownKeys (registry_of A (scope_of c))) = Ok eventName
        /\ dispatch E A message metadata
           = (invoke_guarded (scope_of c) (registry_of A (scope_of c))
                unknown eventName message', Fulfilled)).
Proof.
  unfold dispatch.
  destruct (extendMessage E message) as [message' | e] eqn:He;
    [ | left; exists e; auto].
  destruct (chat message') as [c | ] eqn:Hc;
    [ | left; exists TypeError; split; [reflexivity | right; eauto 6]].
  unfold scope_of.
  destruct (String.eqb (c_type c) "private") eqn:Hp; cbn [registry_of].
  - destruct (getEventName E message' metadata (ownKeys (privateEvents A)))
      as [eventName | e] eqn:Hn.
    + right. exists message', c, eventName, "Unknown private event: ".
      rewrite Hp. cbn [registry_of]. auto.
    + left. exists e. split; [reflexivity | ]. right. exists message'.
      split; [reflexivity | ]. right. exists c. rewrite Hp. auto.
  - destruct (getEventName E message' metadata (ownKeys (publicEvents A)))
      as [eventName | e] eqn:Hn.
    + right. exists message', c, eventName, "Unknown public event: ".
      rewrite Hp. cbn [registry_of]. auto.
    + left. exists e. split; [reflexivity | ]. right. exists message'.
      split; [reflexivity | ]. right. exists c. rewrite Hp. auto.
Qed.

(** X17.  On the ordinary path a handler is called only from the
    registry that the chat type selects (the private one for a chat of
    type [private], the public one for any other), under the name that
    the classifier gives for the enriched message with that registry's
    keys, and with the enriched message; and at most one handler is
    called for a message. *)
Theorem dispatch_invokes_selected (E : Env) (A : Args) (message : Message)
    (metadata : Metadata) (scope : Scope) (name : string) (arg : Payload) :
  In (Invoke scope name arg) (dispatch E A message metadata).1 ->
  (exists message' c,
      extendMessage E message = Ok message' /\ chat message' = Some c
      /\ scope = scope_of c /\ arg = PMessage message'
      /\ getEventName E message' metadata (ownKeys (registry_of A scope))
         = Ok name
      /\ is_Some (lookup_event (registry_of A scope) name))
  /\ forall scope' name' arg',
       In (Invoke scope' name' arg') (dispatch E A message metadata).1 ->
       Invoke scope' name' arg' = Invoke scope name arg.
Proof.
  intros Hin.
  destruct (dispatch_cases E A message metadata)
    as [(e & Hd & _) | (message' & c & eventName & unknown & He & Hc & Hn & Hd)];
    [rewrite Hd in Hin; destruct Hin | ].
  rewrite Hd in Hin |- *. cbn [fst] in Hin |- *.
  destruct (invoke_guarded_cases (scope_of c) (registry_of A (scope_of c))
              unknown eventName message') as [[_ Hg] | (h & Hl & Hg)];
    rewrite Hg in Hin |- *.
  { destruct Hin as [Hin | []]. discriminate Hin. }
  assert (forall s n a,
             In (Invoke s n a)
               (Invoke (scope_of c) eventName (PMessage message')
                :: match h (PMessage message') with
                   | Some error => [EmitError error]
                   | None => []
                   end) ->
             Invoke s n a = Invoke (scope_of c) eventName (PMessage message'))
    as Honly.
  { intros s n a [H | H]; [symmetry; exact H | ].
    destruct (h (PMessage message')); [ | destruct H].
    destruct H as [H | []]. discriminate H. }
  pose proof (Honly _ _ _ Hin) as Heq. injection Heq as -> -> ->.
  split.
  - exists message', c. repeat split; try assumption. rewrite Hl. eauto.
  - exact Honly.
Qed.

Lemma dispatch_invokes_selected_witness :
  exists message' c,
    extendMessage sample_env (group_forward 1 "a") = Ok message'
    /\ chat message' = Some c /\ Public = scope_of c.
Proof.
  destruct (dispatch_invokes_selected sample_env sample_args
              (group_forward 1 "a") voice_metadata Public "voice"
              (PMessage (enriched sample_env (group_forward 1 "a"))))
    as [(m' & c & H1 & H2 & H3 & _) _].
  - left. reflexivity.
  - exists m', c. split; [exact H1 | split; [exact H2 | exact H3]].
Defined.

(** X18.  When the promise of the [message] listener rejects on the
    ordinary path, no handler has been called and nothing has been
    handed to the error channel: the rejection comes from enrichment,
    from a message without a chat, or from the classifier.  A failure
    of the handler itself never rejects the listener. *)
Theorem dispatch_rejects_before_handler (E : Env) (A : Args)
    (message : Message) (metadata : Metadata) (e : Error) :
  (dispatch E A message metadata).2 = Rejected e ->
  (dispatch E A message metadata).1 = []
  /\ (extendMessage E message = Throw e
      \/ exists message', extendMessage E message = Ok message'
           /\ ((chat message' = None /\ e = TypeError)
               \/ exists c, chat message' = Some c
                    /\ getEventName E message' metadata
                         (ownKeys (registry_of A (scope_of c))) = Throw e)).
Proof.
  intros Hrej.
  destruct (dispatch_cases E A message metadata)
    as [(e' & Hd & Hcause) | (message' & c & eventName & unknown & _ & _ & _ & Hd)];
    rewrite Hd in Hrej |- *; [ | discriminate Hrej].
  injection Hrej as <-. split; [reflexivity | exact Hcause].
Qed.

Lemma dispatch_rejects_before_handler_witness :
  (dispatch sample_env sample_args contact_without_sender
     {| md_type := "contact" |}).1 = [].
Proof.
  destruct (dispatch_rejects_before_handler sample_env sample_args
              contact_without_sender {| md_type := "contact" |} TypeError
              eq_refl) as [H _].
  exact H.
Defined.

Lemma invoke_then_single (scope : Scope) (events : Registry) (name : string)
    (arg : Payload) (s : Scope) (n : string) (a : Payload) :
  In (Invoke s n a) (invoke_then scope events name arg ([], Fulfilled)).1 ->
  s = scope /\ n = name /\ a = arg
  /\ (invoke_then scope events name arg ([], Fulfilled)).1
     = [Invoke scope name arg].
Proof.
  unfold invoke_then. destruct (lookup_event events name) as [h | ];
    [ | intros []].
  destruct (h arg); cbn; intros [[= <- <- <-] | []]; auto.
Qed.

(** X19.  An inline query reaches the private [inline_query] handler
    only when its chat type is [private] or [sender], the public one
    only when it is [group] or [supergroup], never both, and always
    with the query itself; with any other chat type, or none, no
    handler is called. *)
Theorem on_inline_query_routing (A : Args) (message : InlineQuery)
    (scope : Scope) (name : string) (arg : Payload) :
  In (Invoke scope name arg) (on_inline_query A message).1 ->
  name = "inline_query" /\ arg = PInline message
  /\ (on_inline_query A message).1 = [Invoke scope name arg]
  /\ match scope with
     | Private => chat_type message = Some "private"
                  \/ chat_type message = Some "sender"
     | Public => chat_type message = Some "group"
                 \/ chat_type message = Some "supergroup"
     end.
Proof.
  unfold on_inline_query.
  destruct (bool_decide (chat_type message = Some "private")
            || bool_decide (chat_type message = Some "sender")) eqn:Hpriv.
  { intros Hin. apply invoke_then_single in Hin.
    destruct Hin as (-> & -> & -> & Heff).
    repeat split; [exact Heff | ].
    apply orb_true_iff in Hpriv.
    destruct Hpriv as [H | H]; apply bool_decide_eq_true_1 in H; auto. }
  destruct (bool_decide (chat_type message = Some "group")
            || bool_decide (chat_type message = Some "supergroup")) eqn:Hpub.
  { intros Hin. apply invoke_then_single in Hin.
    destruct Hin as (-> & -> & -> & Heff).
    repeat split; [exact Heff | ].
    apply orb_true_iff in Hpub.
    destruct Hpub as [H | H]; apply bool_decide_eq_true_1 in H; auto. }
  intros [].
Qed.

Lemma on_inline_query_routing_witness :
  (on_inline_query failing_args {| iq_id := "i1"; chat_type := Some "sender" |}).1
  = [Invoke Private "inline_query"
       (PInline {| iq_id := "i1"; chat_type := Some "sender" |})].
Proof.
  destruct (on_inline_query_routing failing_args
              {| iq_id := "i1"; chat_type := Some "sender" |}
              Private "inline_query"
              (PInline {| iq_id := "i1"; chat_type := Some "sender" |}))
    as (_ & _ & H & _).
  - left. reflexivity.
  - exact H.
Defined.

Lemma callback_query_both_witness :
  (on_callback_query sample_args buy_query).1 =
    [Invoke Public "buy" (PCallback "q1" (Some channel_post_message));
     Invoke Private "buy" (PCallback "q1" (Some channel_post_message))].
Proof.
  apply (callback_query_both sample_args buy_query quiet_handler quiet_handler);
    reflexivity.
Defined.

(** ** Bursts of forwards *)






(** ** What the loop keeps *)

Section Invariant.

Variable E : Env.
Variable A : Args.
Variable L : Latency.
Variable U : Message -> Metadata -> Prop.

Lemma Inv_init : Inv E A U init.
Proof.
  split; cbn.
  - intros key tr H. rewrite lookup_empty in H. discriminate H.
  - intros key key' tr tr' H. rewrite lookup_empty in H. discriminate H.
  - intros key exts d [].
  - constructor.
Qed.

Lemma Inv_with_now (st : State) (t : Z) : Inv E A U st -> Inv E A U (with_now st t).
Proof. intros [H1 H2 H3 H4]. split; assumption. Qed.

Lemma Inv_with_pending (st : State) (ps : list Pending) :
  (forall p, In p ps -> In p (pending st)) ->
  Inv E A U st -> Inv E A U (with_pending st ps).
Proof.
  intros Hsub [H1 H2 H3 H4]. split; try assumption.
  intros key exts d Hin. exact (H3 key exts d (Hsub _ Hin)).
Qed.

Lemma Inv_more_pending (st : State) (p : Pending) :
  (forall key exts d, p = Resolving key (Ok exts) d -> flushed_from E U key exts) ->
  Inv E A U st -> Inv E A U (with_pending st (pending st ++ [p])).
Proof.
  intros Hp [H1 H2 H3 H4]. split; try assumption.
  intros key exts d Hin. cbn in Hin. apply in_app_or in Hin.
  destruct Hin as [Hin | [Heq | []]]; [exact (H3 key exts d Hin) | ].
  exact (Hp key exts d Heq).
Qed.

Lemma Inv_record (st : State) (effects : list Effect) :
  Forall (invocation_ok E A U) effects ->
  Inv E A U st -> Inv E A U (record st effects).
Proof.
  intros He [H1 H2 H3 H4]. split; try assumption.
  cbn. apply Forall_app. split; assumption.
Qed.

Lemma Inv_finish (st : State) (key : Z) :
  Inv E A U st -> Inv E A U (finish st key).
Proof.
  intros [H1 H2 H3 H4]. split; try assumption; cbn.
  - intros k tr H. apply lookup_delete_Some in H. exact (H1 k tr (proj2 H)).
  - intros k k' tr tr' H H'.
    apply lookup_delete_Some in H. apply lookup_delete_Some in H'.
    exact (H2 k k' tr tr' (proj2 H) (proj2 H')).
Qed.

Lemma Inv_clearTimeout (st : State) (id : nat) :
  Inv E A U st -> Inv E A U (clearTimeout id st).
Proof.
  intros H. unfold clearTimeout. apply Inv_with_pending; [ | exact H].
  intros p Hp. apply list_elem_of_In in Hp. apply list_elem_of_filter in Hp.
  apply list_elem_of_In. exact (proj2 Hp).
Qed.

Lemma Inv_on_forward (st : State) (key : Z) (m : Message) (metadata : Metadata) :
  U m metadata -> self_forward_of key m ->
  Inv E A U st -> Inv E A U (on_forward st key m).
Proof.
  intros Hu Hm Hinv.
  destruct (transactionMessages st !! key) as [tr | ] eqn:Hkey.
  - destruct (inv_refs _ _ _ _ Hinv key tr Hkey) as (Hlt & ms & Harr & Hne & Hall).
    rewrite (on_forward_again_eq st key m tr ms Hkey Harr).
    destruct Hinv as [H1 H2 H3 H4]. split; cbn.
    + intros k tr' Hk. destruct (decide (key = k)) as [<- | Hneq].
      * rewrite lookup_insert_eq in Hk. injection Hk as <-. cbn.
        split; [lia | ]. exists (ms ++ [m]). rewrite lookup_insert_eq.
        split; [reflexivity | ]. split; [destruct ms; discriminate | ].
        apply Forall_app. split; [exact Hall | ]. constructor; [ | constructor].
        split; [eauto | exact Hm].
      * rewrite lookup_insert_ne in Hk by exact Hneq.
        destruct (H1 k tr' Hk) as (Hlt' & ms' & Harr' & Hb').
        split; [lia | ]. exists ms'. split; [ | exact Hb'].
        rewrite lookup_insert_ne; [exact Harr' | ].
        intros Heq. apply Hneq. exact (H2 key k tr tr' Hkey Hk Heq).
    + intros k k' tr1 tr2 Hk Hk' Heq.
      destruct (decide (key = k)) as [<- | Hneq];
        destruct (decide (key = k')) as [<- | Hneq']; try reflexivity.
      * rewrite lookup_insert_eq in Hk. injection Hk as <-.
        rewrite lookup_insert_ne in Hk' by exact Hneq'.
        exact (H2 key k' tr tr2 Hkey Hk' Heq).
      * rewrite lookup_insert_eq in Hk'. injection Hk' as <-.
        rewrite lookup_insert_ne in Hk by exact Hneq.
        symmetry. exact (H2 key k tr tr1 Hkey Hk (eq_sym Heq)).
      * rewrite lookup_insert_ne in Hk by exact Hneq.
        rewrite lookup_insert_ne in Hk' by exact Hneq'.
        exact (H2 k k' tr1 tr2 Hk Hk' Heq).
    + intros k exts d Hin. apply in_app_or in Hin.
      destruct Hin as [Hin | [Heq | []]]; [ | discriminate Heq].
      apply list_elem_of_In in Hin. apply list_elem_of_filter in Hin.
      destruct Hin as [_ Hin]. apply list_elem_of_In in Hin.
      exact (H3 k exts d Hin).
    + exact H4.
  - rewrite (on_forward_first_eq st key m Hkey).
    destruct Hinv as [H1 H2 H3 H4]. split; cbn.
    + intros k tr' Hk. destruct (decide (key = k)) as [<- | Hneq].
      * rewrite lookup_insert_eq in Hk. injection Hk as <-. cbn.
        split; [lia | ]. exists [m]. rewrite lookup_insert_eq.
        split; [reflexivity | ]. split; [discriminate | ].
        constructor; [ | constructor]. split; [eauto | exact Hm].
      * rewrite lookup_insert_ne in Hk by exact Hneq.
        destruct (H1 k tr' Hk) as (Hlt' & ms' & Harr' & Hb').
        split; [lia | ]. exists ms'. split; [ | exact Hb'].
        rewrite lookup_insert_ne; [exact Harr' | lia].
    + intros k k' tr1 tr2 Hk Hk' Heq.
      destruct (decide (key = k)) as [<- | Hneq];
        destruct (decide (key = k')) as [<- | Hneq']; try reflexivity.
      * rewrite lookup_insert_eq in Hk. injection Hk as <-.
        rewrite lookup_insert_ne in Hk' by exact Hneq'.
        destruct (H1 k' tr2 Hk') as [Hlt' _]. cbn in Heq. lia.
      * rewrite lookup_insert_eq in Hk'. injection Hk' as <-.
        rewrite lookup_insert_ne in Hk by exact Hneq.
        destruct (H1 k tr1 Hk) as [Hlt' _]. cbn in Heq. lia.
      * rewrite lookup_insert_ne in Hk by exact Hneq.
        rewrite lookup_insert_ne in Hk' by exact Hneq'.
        exact (H2 k k' tr1 tr2 Hk Hk' Heq).
    + intros k exts d Hin. apply in_app_or in Hin.
      destruct Hin as [Hin | [Heq | []]]; [ | discriminate Heq].
      exact (H3 k exts d Hin).
    + exact H4.
Qed.

Lemma dispatch_effects_ok (m : Message) (metadata : Metadata) :
  U m metadata -> not_self_forward m ->
  Forall (invocation_ok E A U) (observed (dispatch E A m metadata)).
Proof.
  intros Hu Hn. apply Forall_forall. intros e He.
  apply list_elem_of_In in He.
  destruct e as [scope name arg | | | ]; cbn; try exact I.
  right. exists m, metadata. split; [exact Hu | ]. split; [exact Hn | ].
  unfold observed in He. destruct ((dispatch E A m metadata).2); [exact He | ].
  apply in_app_or in He. destruct He as [He | [He | []]]; [exact He | discriminate He].
Qed.

Lemma Inv_on_message (st : State) (m : Message) (metadata : Metadata) :
  U m metadata -> Inv E A U st -> Inv E A U (on_message E A st m metadata).
Proof.
  intros Hu Hinv. unfold on_message.
  destruct (bool_decide (is_Some (forward_from m))
            || bool_decide (is_Some (forward_from_chat m))) eqn:Hmark.
  - assert (forward_marker m) as Hfm.
    { apply orb_true_iff in Hmark.
      destruct Hmark as [H | H]; apply bool_decide_eq_true_1 in H;
        [left | right]; exact H. }
    destruct (chat m) as [c | ] eqn:Hc;
      [ | apply Inv_record; [repeat constructor | exact Hinv]].
    destruct (from m) as [sender | ] eqn:Hf;
      [ | apply Inv_record; [repeat constructor | exact Hinv]].
    destruct (c_id c =? u_id sender) eqn:Hid.
    + apply Z.eqb_eq in Hid. apply (Inv_on_forward st (c_id c) m metadata Hu);
        [ | exact Hinv].
      split; [exact Hfm | ]. exists c, sender. auto.
    + apply Z.eqb_neq in Hid. apply Inv_record; [ | exact Hinv].
      apply dispatch_effects_ok; [exact Hu | ].
      right. exists c, sender. auto.
  - apply Inv_record; [ | exact Hinv].
    apply dispatch_effects_ok; [exact Hu | ].
    left. apply orb_false_iff in Hmark. destruct Hmark as [H1 H2].
    apply bool_decide_eq_false_1 in H1. apply bool_decide_eq_false_1 in H2.
    intros [H | H]; [exact (H1 H) | exact (H2 H)].
Qed.

Lemma Inv_on_timeout (st : State) (key : Z) :
  Inv E A U st -> Inv E A U (on_timeout E L st key).
Proof.
  intros Hinv. unfold on_timeout.
  destruct (transactionMessages st !! key) as [tr | ] eqn:Hkey; [ | exact Hinv].
  destruct (inv_refs _ _ _ _ Hinv key tr Hkey) as (_ & ms & Harr & Hb).
  apply Inv_more_pending; [ | apply Inv_clearTimeout; exact Hinv].
  intros k exts d [= <- Hext _]. exists ms. split; [exact Hb | ].
  rewrite <- Hext. cbn. rewrite Harr. reflexivity.
Qed.

Lemma Inv_on_resolved (st : State) (key : Z) (r : result (list Message)) :
  (forall exts, r = Ok exts -> flushed_from E U key exts) ->
  Inv E A U st -> Inv E A U (on_resolved A L st key r).
Proof.
  intros Hr Hinv. unfold on_resolved. destruct r as [exts | error].
  - destruct (lookup_event (privateEvents A) "message_forwards") as [h | ] eqn:Hh;
      [ | apply Inv_finish; exact Hinv].
    apply Inv_more_pending; [intros k x d Heq; discriminate Heq | ].
    apply Inv_record; [ | exact Hinv].
    constructor; [ | constructor]. cbn. left.
    split; [reflexivity | ]. split; [reflexivity | ].
    split; [rewrite Hh; eauto | ].
    exists key, exts. split; [reflexivity | exact (Hr exts eq_refl)].
  - apply Inv_finish. apply Inv_record; [repeat constructor | exact Hinv].
Qed.

Lemma Inv_on_handled (st : State) (key : Z) (outcome : option Error) :
  Inv E A U st -> Inv E A U (on_handled st key outcome).
Proof.
  intros Hinv. unfold on_handled. destruct outcome as [error | ].
  - apply Inv_finish. apply Inv_record; [repeat constructor | exact Hinv].
  - apply Inv_finish. exact Hinv.
Qed.

Lemma take_due_In (d : Z) (ps : list Pending) (p : Pending) (rest : list Pending) :
  take_due d ps = Some (p, rest) ->
  In p ps /\ forall q, In q rest -> In q ps.
Proof.
  revert p rest. induction ps as [| a ps IH]; intros p rest; cbn; [discriminate | ].
  destruct (due_of a =? d).
  - intros [= <- <-]. split; [left; reflexivity | intros q Hq; right; exact Hq].
  - destruct (take_due d ps) as [[q r] | ]; [ | discriminate].
    intros [= <- <-]. destruct (IH q r eq_refl) as [Hin Hsub]. split.
    + right. exact Hin.
    + intros x [-> | Hx]; [left; reflexivity | right; exact (Hsub x Hx)].
Qed.

Lemma Inv_run_pending (st : State) (t d : Z) (p : Pending) (rest : list Pending) :
  take_due d (pending st) = Some (p, rest) ->
  Inv E A U st ->
  Inv E A U (run_pending E A L (with_pending (with_now st t) rest) p).
Proof.
  intros Htake Hinv. destruct (take_due_In _ _ _ _ Htake) as [Hin Hsub].
  assert (Inv E A U (with_pending (with_now st t) rest)) as Hinv'.
  { apply Inv_with_pending; [exact Hsub | apply Inv_with_now; exact Hinv]. }
  destruct p as [id key d' | key r d' | key outcome d']; cbn [run_pending].
  - apply Inv_on_timeout. exact Hinv'.
  - apply Inv_on_resolved; [ | exact Hinv'].
    intros exts ->. exact (inv_pending _ _ _ _ Hinv key exts d' Hin).
  - apply Inv_on_handled. exact Hinv'.
Qed.

Lemma Inv_advance (t : Z) (fuel : nat) (st : State) :
  Inv E A U st -> Inv E A U (advance fuel E A L t st).
Proof.
  revert st. induction fuel as [| fuel IH]; intros st Hinv; cbn; [exact Hinv | ].
  destruct (min_due (pending st)) as [d | ]; [ | apply Inv_with_now; exact Hinv].
  destruct (d <=? t); [ | apply Inv_with_now; exact Hinv].
  destruct (take_due d (pending st)) as [[p rest] | ] eqn:Htake; [ | exact Hinv].
  apply IH. exact (Inv_run_pending st _ d p rest Htake Hinv).
Qed.

Lemma Inv_deliver (st : State) (u : Z * Message * Metadata) :
  U (message_of u) u.2 -> Inv E A U st -> Inv E A U (deliver E A L st u).
Proof.
  intros Hu Hinv. unfold deliver. apply Inv_on_message; [exact Hu | ].
  apply Inv_advance. exact Hinv.
Qed.

Lemma Inv_foldl (updates : list (Z * Message * Metadata)) (st : State) :
  Forall (fun u => U (message_of u) u.2) updates ->
  Inv E A U st -> Inv E A U (foldl (deliver E A L) st updates).
Proof.
  intros Hall. revert st. induction Hall as [| u updates Hu _ IH]; intros st Hinv;
    cbn; [exact Hinv | ].
  apply IH. exact (Inv_deliver st u Hu Hinv).
Qed.

End Invariant.

Lemma Inv_run (E : Env) (A : Args) (L : Latency)
    (updates : list (Z * Message * Metadata)) (horizon : Z) :
  Inv E A (fun m metadata => exists t, In (t, m, metadata) updates)
    (run E A L updates horizon).
Proof.
  unfold run. apply Inv_advance. apply Inv_foldl; [ | apply Inv_init].
  apply Forall_forall. intros [[t m] metadata] Hin.
  apply list_elem_of_In in Hin. exists t. exact Hin.
Qed.

Lemma forwards_payload (e : Effect) (ms : list Message) :
  match e with
  | Invoke Private "message_forwards" (PForwards ms') => Some ms'
  | _ => None
  end = Some ms ->
  e = Invoke Private "message_forwards" (PForwards ms).
Proof.
  destruct e as [[ | ] name arg | | | ]; try discriminate.
  repeat (destruct name as [| [b1 b2 b3 b4 b5 b6 b7 b8] name];
          [destruct arg; discriminate | ];
          destruct b1; try (destruct arg; discriminate);
          destruct b2; try (destruct arg; discriminate);
          destruct b3; try (destruct arg; discriminate);
          destruct b4; try (destruct arg; discriminate);
          destruct b5; try (destruct arg; discriminate);
          destruct b6; try (destruct arg; discriminate);
          destruct b7; try (destruct arg; discriminate);
          destruct b8; try (destruct arg; discriminate)).
  destruct name; [ | destruct arg; discriminate].
  destruct arg; try discriminate. intros [= <-]. reflexivity.
Qed.

Lemma self_forward_of_frame (key : Z) (m m' : Message) :
  same_frame m m' -> self_forward_of key m -> self_forward_of key m'.
Proof.
  intros (_ & Hc & Hf & Hff & Hfc & _) (Hmark & c & sender & H1 & H2 & H3 & H4).
  split.
  - unfold forward_marker in *. rewrite Hff, Hfc. exact Hmark.
  - exists c, sender. rewrite Hc, Hf. auto.
Qed.

Lemma not_both_forwards (key : Z) (m : Message) :
  self_forward_of key m -> not_self_forward m -> False.
Proof.
  intros (Hmark & c & sender & Hc & Hf & Hck & Hsk) [Hn | (c' & s' & Hc' & Hf' & Hne)].
  - exact (Hn Hmark).
  - rewrite Hc in Hc'. rewrite Hf in Hf'. injection Hc' as <-. injection Hf' as <-.
    congruence.
Qed.

Lemma dispatch_payload (E : Env) (A : Args) (m : Message) (metadata : Metadata)
    (scope : Scope) (name : string) (arg : Payload) :
  In (Invoke scope name arg) (dispatch E A m metadata).1 ->
  exists m', arg = PMessage m'.
Proof.
  intros Hd.
  destruct (dispatch_cases E A m metadata)
    as [(e & Hdc & _) | (m' & c & n & unknown & _ & _ & _ & Hdc)];
    rewrite Hdc in Hd; [destruct Hd | ].
  cbn [fst] in Hd.
  destruct (invoke_guarded_cases (scope_of c) (registry_of A (scope_of c))
              unknown n m') as [[_ Hg] | (h & _ & Hg)]; rewrite Hg in Hd.
  - destruct Hd as [Hd | []]. discriminate Hd.
  - destruct Hd as [[= _ _ <-] | Hd]; [eauto | ].
    destruct (h (PMessage m')); [ | destruct Hd].
    destruct Hd as [Hd | []]. discriminate Hd.
Qed.

(** X21.  Whatever updates arrive and whenever, every batch handed to
    the [message_forwards] handler is non-empty, and all its messages
    are enrichments of received messages that are self-forwards in one
    and the same chat. *)
Theorem flushed_batches_well_formed (E : Env) (A : Args) (L : Latency)
    (updates : list (Z * Message * Metadata)) (horizon : Z) :
  Forall (fun extMessages =>
            extMessages <> []
            /\ exists key,
                 Forall (fun m' =>
                           self_forward_of key m'
                           /\ exists t m metadata,
                                In (t, m, metadata) updates
                                /\ self_forward_of key m
                                /\ extendMessage E m = Ok m')
                   extMessages)
    (flushed (run E A L updates horizon)).
Proof.
  pose proof (inv_log _ _ _ _ (Inv_run E A L updates horizon)) as Hlog.
  apply Forall_forall. intros exts Hin. unfold flushed in Hin.
  apply list_elem_of_omap in Hin. destruct Hin as (e & He & Hf).
  apply forwards_payload in Hf. subst e.
  rewrite Forall_forall in Hlog. specialize (Hlog _ He). cbn in Hlog.
  destruct Hlog as [(_ & _ & _ & key & exts' & [= <-] & ms & (Hne & Hall) & Hext)
                   | (m & md & _ & _ & Hd)].
  - pose proof (mapM_Forall2 _ (fun m m' => extendMessage E m = Ok m') _ _
                  (fun a b H => H) Hext) as H2.
    split.
    + intros ->. inversion H2. subst. exact (Hne eq_refl).
    + exists key. clear Hne Hext He.
      induction H2 as [| m m' ms exts Hmm' _ IH]; [constructor | ].
      apply Forall_cons_1 in Hall. destruct Hall as [[[md [t Hu]] Hsf] Hall].
      constructor; [ | exact (IH Hall)].
      split; [exact (self_forward_of_frame key m m'
                       (extendMessage_same_frame E m m' Hmm') Hsf) | eauto 8].
  - exfalso. apply dispatch_payload in Hd. destruct Hd as [m' Hd]. discriminate Hd.
Qed.

(** X22.  Every call of a handler that the [message] listener and its
    timers make is either the call of the registered [message_forwards]
    handler with a batch, or the call that the ordinary path makes for a
    received message that is not a self-forward: a self-forward is never
    handed to the handler of its own kind. *)
Theorem invocations_accounted_for (E : Env) (A : Args) (L : Latency)
    (updates : list (Z * Message * Metadata)) (horizon : Z)
    (scope : Scope) (name : string) (arg : Payload) :
  In (Invoke scope name arg) (log (run E A L updates horizon)) ->
  (scope = Private /\ name = "message_forwards"
   /\ is_Some (lookup_event (privateEvents A) "message_forwards")
   /\ exists extMessages,
        arg = PForwards extMessages
        /\ In extMessages (flushed (run E A L updates horizon)))
  \/ (exists t m metadata,
        In (t, m, metadata) updates /\ not_self_forward m
        /\ In (Invoke scope name arg) (dispatch E A m metadata).1).
Proof.
  intros Hin.
  pose proof (inv_log _ _ _ _ (Inv_run E A L updates horizon)) as Hlog.
  rewrite Forall_forall in Hlog.
  pose proof (Hlog _ (proj2 (list_elem_of_In _ _) Hin)) as Hok. cbn in Hok.
  destruct Hok as [(-> & -> & Hh & key & exts & -> & _)
                  | (m & md & [t Hu] & Hn & Hd)].
  - left. repeat split; [exact Hh | ]. exists exts. split; [reflexivity | ].
    apply list_elem_of_In. unfold flushed. apply list_elem_of_omap.
    exists (Invoke Private "message_forwards" (PForwards exts)).
    split; [apply list_elem_of_In; exact Hin | reflexivity].
  - right. eauto 8.
Qed.

Lemma invocations_accounted_for_witness :
  exists extMessages,
    PForwards [enriched sample_env (self_forward 1 "a")] = PForwards extMessages
    /\ In extMessages
         (flushed (run sample_env sample_args sample_latency
                     [first_forward; late_forward] 10000)).
Proof.
  destruct (invocations_accounted_for sample_env sample_args sample_latency
              [first_forward; late_forward] 10000 Private "message_forwards"
              (PForwards [enriched sample_env (self_forward 1 "a")]))
    as [(_ & _ & _ & H) | (t & m & md & Hin & Hn & Hd)].
  - vm_compute. left. reflexivity.
  - exact H.
  - exfalso. apply dispatch_payload in Hd. destruct Hd as [m' Hd]. discriminate Hd.
Defined.

(** X23.  Without a registered [message_forwards] handler, self-forwards
    are resolved and dropped: whatever self-forwards arrive, no handler
    of either registry is ever called for them. *)
Theorem forwards_without_handler_dropped (E : Env) (A : Args) (L : Latency)
    (updates : list (Z * Message * Metadata)) (horizon : Z) :
  lookup_event (privateEvents A) "message_forwards" = None ->
  Forall (fun u => exists key, self_forward_of key (message_of u)) updates ->
  forall scope name arg,
    ~ In (Invoke scope name arg) (log (run E A L updates horizon)).
Proof.
  intros Hnone Hall scope name arg Hin.
  pose proof (inv_log _ _ _ _ (Inv_run E A L updates horizon)) as Hlog.
  rewrite Forall_forall in Hlog.
  pose proof (Hlog _ (proj2 (list_elem_of_In _ _) Hin)) as Hok. cbn in Hok.
  destruct Hok as [(_ & _ & Hh & _) | (m & md & [t Hu] & Hn & _)].
  - rewrite Hnone in Hh. destruct Hh as [x Hx]. discriminate Hx.
  - rewrite Forall_forall in Hall.
    destruct (Hall _ (proj2 (list_elem_of_In _ _) Hu)) as [key Hsf].
    exact (not_both_forwards key m Hsf Hn).
Qed.

Lemma forwards_without_handler_dropped_witness :
  ~ In (Invoke Private "voice" (PMessage (enriched sample_env (self_forward 1 "a"))))
      (log (run sample_env
              {| privateEvents := [("voice", quiet_handler)]; publicEvents := [] |}
              sample_latency [first_forward; late_forward] 10000)).
Proof.
  apply (forwards_without_handler_dropped sample_env
           {| privateEvents := [("voice", quiet_handler)]; publicEvents := [] |}
           sample_latency [first_forward; late_forward] 10000).
  - reflexivity.
  - repeat constructor; exists 5; (split; [left; eexists; reflexivity
      | exists (mkChat 5 "private"), (mkUser 5 false); auto]).
Defined.

(** ** Forwards that arrive during a flush *)

Lemma forwards_after_flush_witness :
  flushed (run sample_env sample_args sample_latency
             [first_forward; (1600, self_forward 2 "b", voice_metadata)] 10000)
  = [[enriched sample_env (self_forward 1 "a")];
     [enriched sample_env (self_forward 2 "b")]].
Proof.
  apply (forwards_after_flush sample_env sample_args sample_latency 5
           (self_forward 1 "a") (self_forward 2 "b") voice_metadata voice_metadata
           0 1600 10000 quiet_handler);
    try reflexivity; try (cbn; unfold FORWARD_TIME; lia);
    (split; [left; eexists; reflexivity
            | exists (mkChat 5 "private"), (mkUser 5 false); auto]).
Defined.

Lemma late_forward_is_dropped_witness :
  run sample_env sample_args sample_latency [first_forward; late_forward] 10000 =
    {| now := 10000;
       transactionMessages := ∅;
       arrays := {[ 0%nat := [self_forward 1 "a"; self_forward 2 "b"] ]};
       next_id := 3;
       pending := [];
       log := [Invoke Private "message_forwards"
                 (PForwards [enriched sample_env (self_forward 1 "a")])] |}.
Proof.
  apply (late_forward_is_dropped sample_env sample_args sample_latency 5
           (self_forward 1 "a") (self_forward 2 "b") voice_metadata voice_metadata
           0 1200 10000 quiet_handler);
    try reflexivity; try (cbn; unfold FORWARD_TIME; lia);
    (split; [left; eexists; reflexivity
            | exists (mkChat 5 "private"), (mkUser 5 false); auto]).
Defined.



(** ** The transport chosen by the constructor *)



(** ** Chats do not interfere *)

Section Timers.

Variable E : Env.
Variable A : Args.
Variable L : Latency.

Lemma TimerInv_init : TimerInv init.
Proof.
  split; cbn.
  - intros key tr H. rewrite lookup_empty in H. discriminate H.
  - intros id key d [].
  - intros id key d key' tr [].
Qed.

Lemma TimerInv_with_now (st : State) (t : Z) :
  TimerInv st -> TimerInv (with_now st t).
Proof. intros [H1 H2 H3]. split; assumption. Qed.

Lemma TimerInv_with_pending (st : State) (ps : list Pending) :
  (forall id key d, In (Timer id key d) ps -> In (Timer id key d) (pending st)) ->
  TimerInv st -> TimerInv (with_pending st ps).
Proof.
  intros Hsub [H1 H2 H3]. split; cbn.
  - exact H1.
  - intros id key d Hin. exact (H2 id key d (Hsub _ _ _ Hin)).
  - intros id key d key' tr Hin. exact (H3 id key d key' tr (Hsub _ _ _ Hin)).
Qed.

Lemma TimerInv_record (st : State) (effects : list Effect) :
  TimerInv st -> TimerInv (record st effects).
Proof. intros [H1 H2 H3]. split; assumption. Qed.

Lemma TimerInv_finish (st : State) (key : Z) :
  TimerInv st -> TimerInv (finish st key).
Proof.
  intros [H1 H2 H3]. split; cbn.
  - intros k tr H. apply lookup_delete_Some in H. exact (H1 k tr (proj2 H)).
  - exact H2.
  - intros id k d k' tr Hin H. apply lookup_delete_Some in H.
    exact (H3 id k d k' tr Hin (proj2 H)).
Qed.

Lemma In_filter_timer (id : nat) (p : Pending) (ps : list Pending) :
  In p (filter (fun q => is_timer id q = false) ps)
  <-> In p ps /\ is_timer id p = false.
Proof.
  rewrite <- !list_elem_of_In, list_elem_of_filter. tauto.
Qed.

Lemma TimerInv_clearTimeout (st : State) (id : nat) :
  TimerInv st -> TimerInv (clearTimeout id st).
Proof.
  intros H. unfold clearTimeout. apply TimerInv_with_pending; [ | exact H].
  intros i k d Hin. apply In_filter_timer in Hin. exact (proj1 Hin).
Qed.

Lemma TimerInv_more_pending (st : State) (p : Pending) :
  (forall id key d, p <> Timer id key d) ->
  TimerInv st -> TimerInv (with_pending st (pending st ++ [p])).
Proof.
  intros Hp H. apply TimerInv_with_pending; [ | exact H].
  intros id key d Hin. apply in_app_or in Hin.
  destruct Hin as [Hin | [Heq | []]]; [exact Hin | ].
  exfalso. exact (Hp id key d Heq).
Qed.

Lemma TimerInv_on_forward (st : State) (key : Z) (m : Message) :
  TimerInv st -> TimerInv (on_forward st key m).
Proof.
  intros [H1 H2 H3]. unfold on_forward.
  destruct (transactionMessages st !! key) as [tr | ] eqn:Hkey; split; cbn.
  - intros k tr' Hk. destruct (decide (key = k)) as [<- | Hneq].
    + rewrite lookup_insert_eq in Hk. injection Hk as <-. cbn. lia.
    + rewrite lookup_insert_ne in Hk by exact Hneq.
      pose proof (H1 k tr' Hk). lia.
  - intros id k d Hin. apply in_app_or in Hin.
    destruct Hin as [Hin | [[= <- _ _] | []]]; [ | lia].
    apply In_filter_timer in Hin. pose proof (H2 id k d (proj1 Hin)). lia.
  - intros id k d k' tr' Hin Hk Hid. apply in_app_or in Hin.
    destruct (decide (key = k')) as [<- | Hneq].
    + rewrite lookup_insert_eq in Hk. injection Hk as <-. cbn in Hid.
      destruct Hin as [Hin | [[= _ <- _] | []]]; [ | reflexivity].
      apply In_filter_timer in Hin. pose proof (H2 id k d (proj1 Hin)). lia.
    + rewrite lookup_insert_ne in Hk by exact Hneq.
      destruct Hin as [Hin | [[= <- _ _] | []]].
      * apply In_filter_timer in Hin. exact (H3 id k d k' tr' (proj1 Hin) Hk Hid).
      * pose proof (H1 k' tr' Hk). lia.
  - intros k tr' Hk. destruct (decide (key = k)) as [<- | Hneq].
    + rewrite lookup_insert_eq in Hk. injection Hk as <-. cbn. lia.
    + rewrite lookup_insert_ne in Hk by exact Hneq.
      pose proof (H1 k tr' Hk). lia.
  - intros id k d Hin. apply in_app_or in Hin.
    destruct Hin as [Hin | [[= <- _ _] | []]]; [ | lia].
    pose proof (H2 id k d Hin). lia.
  - intros id k d k' tr' Hin Hk Hid. apply in_app_or in Hin.
    destruct (decide (key = k')) as [<- | Hneq].
    + rewrite lookup_insert_eq in Hk. injection Hk as <-. cbn in Hid.
      destruct Hin as [Hin | [[= _ <- _] | []]]; [ | reflexivity].
      pose proof (H2 id k d Hin). lia.
    + rewrite lookup_insert_ne in Hk by exact Hneq.
      destruct Hin as [Hin | [[= <- _ _] | []]].
      * exact (H3 id k d k' tr' Hin Hk Hid).
      * pose proof (H1 k' tr' Hk). lia.
Qed.

Lemma TimerInv_on_message (st : State) (m : Message) (metadata : Metadata) :
  TimerInv st -> TimerInv (on_message E A st m metadata).
Proof.
  intros H. unfold on_message.
  destruct (_ || _); [ | apply TimerInv_record; exact H].
  destruct (chat m) as [c | ]; [ | apply TimerInv_record; exact H].
  destruct (from m) as [sender | ]; [ | apply TimerInv_record; exact H].
  destruct (c_id c =? u_id sender);
    [apply TimerInv_on_forward | apply TimerInv_record]; exact H.
Qed.

Lemma TimerInv_run_pending (st : State) (t d : Z) (p : Pending)
    (rest : list Pending) :
  take_due d (pending st) = Some (p, rest) ->
  TimerInv st ->
  TimerInv (run_pending E A L (with_pending (with_now st t) rest) p).
Proof.
  intros Htake H. destruct (take_due_In _ _ _ _ Htake) as [_ Hsub].
  assert (TimerInv (with_pending (with_now st t) rest)) as H'.
  { apply TimerInv_with_pending; [ | apply TimerInv_with_now; exact H].
    intros id key d' Hin. exact (Hsub _ Hin). }
  destruct p as [id key d' | key r d' | key outcome d']; cbn [run_pending].
  - unfold on_timeout.
    destruct (transactionMessages _ !! key) as [tr | ]; [ | exact H'].
    apply TimerInv_more_pending; [discriminate | ].
    apply TimerInv_clearTimeout. exact H'.
  - unfold on_resolved. destruct r as [exts | error].
    + destruct (lookup_event (privateEvents A) "message_forwards");
        [ | apply TimerInv_finish; exact H'].
      apply TimerInv_more_pending; [discriminate | ].
      apply TimerInv_record. exact H'.
    + apply TimerInv_finish, TimerInv_record. exact H'.
  - unfold on_handled. destruct outcome;
      [apply TimerInv_finish, TimerInv_record | apply TimerInv_finish]; exact H'.
Qed.

Lemma TimerInv_advance (t : Z) (fuel : nat) (st : State) :
  TimerInv st -> TimerInv (advance fuel E A L t st).
Proof.
  revert st. induction fuel as [| fuel IH]; intros st H; cbn; [exact H | ].
  destruct (min_due (pending st)) as [d | ]; [ | apply TimerInv_with_now; exact H].
  destruct (d <=? t); [ | apply TimerInv_with_now; exact H].
  destruct (take_due d (pending st)) as [[p rest] | ] eqn:Htake; [ | exact H].
  apply IH. exact (TimerInv_run_pending st _ d p rest Htake H).
Qed.

Lemma TimerInv_run (updates : list (Z * Message * Metadata)) (horizon : Z) :
  TimerInv (run E A L updates horizon).
Proof.
  unfold run. apply TimerInv_advance.
  assert (forall st, TimerInv st -> TimerInv (foldl (deliver E A L) st updates))
    as Hfold.
  { induction updates as [| u updates IH]; intros st H; cbn; [exact H | ].
    apply IH. unfold deliver. apply TimerInv_on_message, TimerInv_advance. exact H. }
  apply Hfold, TimerInv_init.
Qed.

End Timers.

(** X28.  In any state that the loop reaches, a self-forward in one chat
    leaves every other chat as it was: its entry in the table, the
    array of its pending batch, and each of its armed timers. *)
Theorem forward_leaves_other_chats (E : Env) (A : Args) (L : Latency)
    (updates : list (Z * Message * Metadata)) (horizon : Z)
    (key key' : Z) (m : Message) (metadata : Metadata) :
  self_forward_of key m -> key <> key' ->
  let st := run E A L updates horizon in
  let st' := on_message E A st m metadata in
  transactionMessages st' !! key' = transactionMessages st !! key'
  /\ (forall transaction,
        transactionMessages st !! key' = Some transaction ->
        arrays st' !! messages transaction = arrays st !! messages transaction)
  /\ (forall id d, In (Timer id key' d) (pending st) ->
                   In (Timer id key' d) (pending st')).
Proof.
  intros Hm Hneq. cbv zeta.
  pose proof (Inv_run E A L updates horizon) as Hinv.
  pose proof (TimerInv_run E A L updates horizon) as Htinv.
  revert Hinv Htinv. generalize (run E A L updates horizon). intros st Hinv Htinv.
  rewrite (on_message_self_forward E A st key m metadata Hm).
  destruct (transactionMessages st !! key) as [tr | ] eqn:Hkey.
  - destruct (inv_refs _ _ _ _ Hinv key tr Hkey) as (_ & ms & Harr & _).
    rewrite (on_forward_again_eq st key m tr ms Hkey Harr). cbn.
    split; [apply lookup_insert_ne; exact Hneq | ]. split.
    + intros tr' Hk'. apply lookup_insert_ne. intros Heq.
      exact (Hneq (inv_distinct _ _ _ _ Hinv key key' tr tr' Hkey Hk' Heq)).
    + intros id d Hin. apply in_or_app. left. apply In_filter_timer.
      split; [exact Hin | ]. cbn. apply Nat.eqb_neq. intros Heq.
      apply Hneq. symmetry.
      exact (tinv_owner _ Htinv id key' d key tr Hin Hkey Heq).
  - rewrite (on_forward_first_eq st key m Hkey). cbn.
    split; [apply lookup_insert_ne; exact Hneq | ]. split.
    + intros tr' Hk'. apply lookup_insert_ne.
      destruct (inv_refs _ _ _ _ Hinv key' tr' Hk') as [Hlt _]. lia.
    + intros id d Hin. apply in_or_app. left. exact Hin.
Qed.

Lemma forward_leaves_other_chats_witness :
  let st := run sample_env sample_args sample_latency [first_forward] 500 in
  let st' := on_message sample_env sample_args st other_forward voice_metadata in
  transactionMessages st' !! 5 = transactionMessages st !! 5
  /\ In (Timer 1 5 1000) (pending st').
Proof.
  intros st st'.
  destruct (forward_leaves_other_chats sample_env sample_args sample_latency
              [first_forward] 500 6 5 other_forward voice_metadata)
    as (H1 & _ & H3).
  - split; [left; eexists; reflexivity
           | exists (mkChat 6 "private"), (mkUser 6 false); auto].
  - lia.
  - split; [exact H1 | ]. apply H3. vm_compute. left. reflexivity.
Defined.
